(** * The block organizer and its store adapter (libbitcoin-blockchain / bitprim)

    A shallow embedding of
      - [block_chain] (src/interface/block_chain.cpp, the v3 store adapter),
      - the older v2 [block_chain] (get_fork_difficulty, the older
        fetch_locator_block_hashes), and
      - [block_organizer] (pools/block_organizer.cpp).

    Conventions.
      - [uint256_t] / [hash_number] values are [Z] with the wrap-around of the
        256-bit addition written out ([uint256_add]).
      - [size_t] heights are [nat]: the heights of stored blocks stay far
        below 2^64, so [++height] and [height + 1u] do not wrap.  Where a
        caller's [limit] enters a sum (fetch_locator_block_hashes), the
        [overflow_error] of [safe_add] and the [length_error] of
        [vector::reserve] are modelled.
      - a 32-byte [hash_digest] is the number it encodes ([N]); [null_hash] is 0.
      - the block index of the database is an array of slots, some of which
        may be empty (the store supports out-of-order insertion, see
        [get_gaps]); [blocks().top] is the last slot's index.  *)

From Stdlib Require Import ZArith Lia List Bool.
From stdpp Require Import base option list gmap.

(* ------------------------------------------------------------------ *)
(** ** Error codes ([bc::error]) used by the modelled functions *)

Inductive code : Type :=
| success
| service_stopped
| operation_failed
| not_found
| duplicate_block
| orphan_block
| insufficient_work
| validate_failed (subcode : nat).

(** [if (ec)]: a code is "set" when it is not [success]. *)
Definition code_is_error (ec : code) : bool :=
  match ec with success => false | _ => true end.

#[global] Instance code_eq_dec : EqDecision code.
Proof. solve_decision. Defined.

(* ------------------------------------------------------------------ *)
(** ** Blocks and the block index of the database *)

Definition hash_digest : Type := N.
Definition null_hash : hash_digest := 0%N.

(** [chain_state] snapshots are identified by the height they describe. *)
Definition chain_state : Type := nat.

(** A block: the header fields the modelled code reads, and the mutable
    validation annotation ([header().validation.height],
    [validation.error], [validation.state]). *)
Record block : Type := mk_block {
  hash : hash_digest;
  previous_block_hash : hash_digest;
  bits : Z;
  validation_height : nat;
  validation_error : code;
  validation_state : option chain_state
}.

#[global] Instance block_eq_dec : EqDecision block.
Proof. solve_decision. Defined.

(** [database_.blocks()]: slot [h] holds the block stored at height [h]. *)
Abbreviation block_database := (list (option block)).

(** [blocks().top(out)]: false on an empty index, else the last height. *)
Definition blocks_top (db : block_database) : option nat :=
  match length db with
  | O => None
  | S n => Some n
  end.

(** [blocks().get(height)]: the result is invalid on a missing record. *)
Definition blocks_get (db : block_database) (height : nat) : option block :=
  match db !! height with
  | Some (Some b) => Some b
  | _ => None
  end.

(** [blocks().get(hash)]: the stored block and [result.height()]. *)
Fixpoint blocks_find (db : block_database) (h : hash_digest) (height : nat)
  : option (nat * block) :=
  match db with
  | [] => None
  | slot :: rest =>
      match slot with
      | Some b =>
          if decide (hash b = h) then Some (height, b)
          else blocks_find rest h (S height)
      | None => blocks_find rest h (S height)
      end
  end.

Definition blocks_get_hash (db : block_database) (h : hash_digest)
  : option (nat * block) :=
  blocks_find db h 0.

(* ------------------------------------------------------------------ *)
(** ** 256-bit work arithmetic *)

Definition uint256_modulus : Z := (2 ^ 256)%Z.

Definition to_uint256 (z : Z) : Z := (z mod uint256_modulus)%Z.

(** [a += b] on [uint256_t]. *)
Definition uint256_add (a b : Z) : Z := to_uint256 (a + b).

(* ------------------------------------------------------------------ *)
(** ** Fast chain readers *)

Section FastChainReaders.

(** [chain::block::proof(bits)] (v3) and [block::difficulty(bits)] (v2) live
    in the core library; they are parameters here.  Their results are
    [uint256_t] / [hash_number] values, hence read through [to_uint256]. *)
Variable proof : Z -> Z.
Variable difficulty : Z -> Z.

Definition block_proof (b : Z) : Z := to_uint256 (proof b).
Definition block_difficulty (b : Z) : Z := to_uint256 (difficulty b).

(** The [for] loop of [block_chain::get_branch_work]:
    [for (height = from_height; height <= top && out_work < maximum; ++height)].
    [remaining] counts the heights [height .. top]. *)
Fixpoint branch_work_loop (db : block_database) (maximum : Z)
    (remaining : nat) (height : nat) (out_work : Z) : option Z :=
  match remaining with
  | O => Some out_work
  | S remaining' =>
      if (out_work <? maximum)%Z then
        match blocks_get db height with
        | None => None
        | Some result =>
            branch_work_loop db maximum remaining' (S height)
              (uint256_add out_work (block_proof (bits result)))
        end
      else Some out_work
  end.

(** [block_chain::get_branch_work(out_work, maximum, from_height)]:
    [None] is the [false] return, [Some w] is [true] with [out_work = w]. *)
Definition get_branch_work (db : block_database) (maximum : Z)
    (from_height : nat) : option Z :=
  match blocks_top db with
  | None => None
  | Some top => branch_work_loop db maximum (S top - from_height) from_height 0%Z
  end.

(** The loop of the older [block_chain::get_fork_difficulty]:
    [for (height = from_height; height <= top; ++height)]. *)
Fixpoint fork_difficulty_loop (db : block_database)
    (remaining : nat) (height : nat) (out_difficulty : Z) : option Z :=
  match remaining with
  | O => Some out_difficulty
  | S remaining' =>
      match blocks_get db height with
      | None => None
      | Some result =>
          fork_difficulty_loop db remaining' (S height)
            (uint256_add out_difficulty (block_difficulty (bits result)))
      end
  end.

(** [block_chain::get_fork_difficulty(out_difficulty, from_height)] (v2). *)
Definition get_fork_difficulty (db : block_database) (from_height : nat)
  : option Z :=
  match blocks_top db with
  | None => None
  | Some top => fork_difficulty_loop db (S top - from_height) from_height 0%Z
  end.

(** The sum of [proof(bits)] over [count] consecutive confirmed heights
    starting at [height], as an unbounded integer; [None] when one of the
    records cannot be read. *)
Fixpoint work_between (db : block_database) (height : nat) (count : nat)
  : option Z :=
  match count with
  | O => Some 0%Z
  | S count' =>
      match blocks_get db height with
      | None => None
      | Some result =>
          match work_between db (S height) count' with
          | None => None
          | Some s => Some (block_proof (bits result) + s)%Z
          end
      end
  end.

(** The reading of [get_branch_work] in which the accumulation goes on
    while the running sum does not exceed [maximum] (it stops only once the
    sum is strictly greater). *)
Fixpoint exceeds_work_loop (db : block_database) (maximum : Z)
    (remaining : nat) (height : nat) (out_work : Z) : option Z :=
  match remaining with
  | O => Some out_work
  | S remaining' =>
      if (out_work <=? maximum)%Z then
        match blocks_get db height with
        | None => None
        | Some result =>
            exceeds_work_loop db maximum remaining' (S height)
              (uint256_add out_work (block_proof (bits result)))
        end
      else Some out_work
  end.

Definition get_branch_work_until_exceeds (db : block_database) (maximum : Z)
    (from_height : nat) : option Z :=
  match blocks_top db with
  | None => None
  | Some top => exceeds_work_loop db maximum (S top - from_height) from_height 0%Z
  end.

End FastChainReaders.

(** [block_chain::get_block_exists(block_hash)]. *)
Definition get_block_exists (db : block_database) (block_hash : hash_digest)
  : bool :=
  match blocks_get_hash db block_hash with
  | Some _ => true
  | None => false
  end.

(** [block_chain::get_height(out_height, block_hash)]. *)
Definition get_height (db : block_database) (block_hash : hash_digest)
  : option nat :=
  match blocks_get_hash db block_hash with
  | Some (height, _) => Some height
  | None => None
  end.

(* ------------------------------------------------------------------ *)
(** ** Branch *)

(** [config::checkpoint]: a block hash with its height. *)
Record checkpoint : Type := mk_checkpoint {
  checkpoint_hash : hash_digest;
  checkpoint_height : nat
}.

(** Modelled from the spec: the [branch] class (pools/branch.cpp is not among
    the sources).  A branch is the tuple of the fork point hash, the fork
    height and the candidate blocks ordered from oldest to newest. *)
Record branch : Type := mk_branch {
  branch_hash : hash_digest;
  branch_height : nat;
  branch_blocks : list block
}.

Definition branch_empty (br : branch) : bool :=
  match branch_blocks br with [] => true | _ => false end.

(** [branch->top()]: the newest block; a null pointer on an empty branch. *)
Definition branch_top (br : branch) : option block := last (branch_blocks br).

(** [top_height = fork_height + len(blocks)]. *)
Definition branch_top_height (br : branch) : nat :=
  branch_height br + length (branch_blocks br).

Definition branch_fork_point (br : branch) : checkpoint :=
  mk_checkpoint (branch_hash br) (branch_height br).

Definition branch_set_height (height : nat) (br : branch) : branch :=
  mk_branch (branch_hash br) height (branch_blocks br).

(** [work = Σ proof(bits_i)], in 256-bit arithmetic. *)
Definition branch_work (proof : Z -> Z) (br : branch) : Z :=
  fold_left (fun total b => uint256_add total (block_proof proof (bits b)))
    (branch_blocks br) 0%Z.

(** The writes of [handle_connect] to the validation annotation of a block
    (the [start_notify] time stamp is left out). *)
Definition set_validation (height : nat) (b : block) : block :=
  mk_block (hash b) (previous_block_hash b) (bits b) height success
    (validation_state b).

(** The branch after [handle_connect] annotated its top block (the branch
    holds the block by pointer, so it sees the annotation). *)
Definition annotate_top (br : branch) : branch :=
  match branch_blocks br with
  | [] => br
  | _ :: _ =>
      mk_branch (branch_hash br) (branch_height br)
        (removelast (branch_blocks br) ++
           match branch_top br with
           | Some top => [set_validation (branch_top_height br) top]
           | None => []
           end)
  end.

(* ------------------------------------------------------------------ *)
(** ** Block pool *)

(** Modelled from the spec: the [block_pool] class (pools/block_pool.cpp is
    not among the sources).  The pool maps a hash to its entry
    [{block, parent_hash, branch_height_hint}]; the recorded height of an
    entry is the height annotation of its block (fork height plus depth in
    the walked path, as [handle_connect] writes it before [add]). *)
Record pool_entry : Type := mk_pool_entry {
  entry_block : block;
  entry_parent : hash_digest;
  entry_height : nat
}.

Record block_pool : Type := mk_block_pool {
  reorganization_limit : nat;
  pool_entries : gmap N pool_entry
}.

Definition entry_of (b : block) : pool_entry :=
  mk_pool_entry b (previous_block_hash b) (validation_height b).

(** [add(block)]: insert keyed by hash; no-op if already present. *)
Definition pool_add (b : block) (pool : block_pool) : block_pool :=
  match pool_entries pool !! hash b with
  | Some _ => pool
  | None =>
      mk_block_pool (reorganization_limit pool)
        (<[hash b := entry_of b]> (pool_entries pool))
  end.

(** [add(list)]: re-admit the blocks popped by a reorganization. *)
Definition pool_add_list (bs : list block) (pool : block_pool) : block_pool :=
  fold_left (fun p b => pool_add b p) bs pool.

(** [remove(list)]: drop a set of hashes. *)
Definition pool_remove (bs : list block) (pool : block_pool) : block_pool :=
  mk_block_pool (reorganization_limit pool)
    (fold_left (fun m b => delete (hash b) m) bs (pool_entries pool)).

(** Whether [prune(new_tip_height)] evicts an entry: its recorded height is
    [<= new_tip_height - reorganization_limit]. *)
Definition pruned (limit new_tip_height : nat) (e : pool_entry) : bool :=
  (Z.of_nat (entry_height e) <=? Z.of_nat new_tip_height - Z.of_nat limit)%Z.

Definition pool_prune (new_tip_height : nat) (pool : block_pool) : block_pool :=
  mk_block_pool (reorganization_limit pool)
    (filter (fun kv => pruned (reorganization_limit pool) new_tip_height kv.2 = false)
       (pool_entries pool)).

Definition pool_contains (pool : block_pool) (h : hash_digest) : bool :=
  match pool_entries pool !! h with Some _ => true | None => false end.

(* ------------------------------------------------------------------ *)
(** ** Database writer used by the reorganization *)

(** Modelled from the spec: [pop_above(fork_hash)] of the database (not
    among the sources): remove all blocks strictly above [fork_hash],
    returning them in top-first order; it fails on an unknown hash. *)
Definition pop_above (db : block_database) (fork_hash : hash_digest)
  : option (block_database * list block) :=
  match blocks_get_hash db fork_hash with
  | None => None
  | Some (height, _) =>
      Some (take (S height) db, rev (omap id (drop (S height) db)))
  end.

(** Modelled from the spec: [push(block)] of the database: append to the
    confirmed tip; the intended [height] must be the next height. *)
Definition push (db : block_database) (b : block) (height : nat)
  : option block_database :=
  if decide (length db = height) then Some (db ++ [Some b]) else None.

Fixpoint push_all (db : block_database) (bs : list block) (height : nat)
  : option block_database :=
  match bs with
  | [] => Some db
  | b :: rest =>
      match push db b height with
      | None => None
      | Some db' => push_all db' rest (S height)
      end
  end.

(** Modelled from the spec: [database_.reorganize]: the atomic pop-then-push
    swap.  [incoming] is committed in order starting at
    [fork_point.height + 1]; the popped blocks are the outgoing list.  On a
    failed push the chain remains at the fork point. *)
Definition database_reorganize (db : block_database) (fork_point : checkpoint)
    (incoming : list block) : code * block_database * list block :=
  match pop_above db (checkpoint_hash fork_point) with
  | None => (operation_failed, db, [])
  | Some (popped, outgoing) =>
      match push_all popped incoming (S (checkpoint_height fork_point)) with
      | None => (operation_failed, popped, outgoing)
      | Some db' => (success, db', outgoing)
      end
  end.

(* ------------------------------------------------------------------ *)
(** ** Reorganize subscriber *)

(** Modelled from the spec: the reorganize subscriber (a core-library
    class): a fan-out of [(code, height, incoming, outgoing)] events to the
    registered handlers.  Once stopped, a delivery releases the handlers it
    reached, and a late [subscribe] receives the single terminal event. *)
Record reorganize_subscriber : Type := mk_subscriber {
  subscriber_stopped : bool;
  subscriptions : list nat
}.

(** One delivery to one handler. *)
Record notification : Type := mk_notification {
  notified : nat;
  notified_code : code;
  notified_height : nat;
  notified_incoming : list block;
  notified_outgoing : list block
}.

(* ------------------------------------------------------------------ *)
(** ** Organizer state and the journal of its collaborator calls *)

(** The calls the organizer makes on its collaborators, in program order. *)
Inductive call : Type :=
| call_check (b : block)
| call_accept (br : branch)
| call_connect (br : branch)
| call_pool_add (b : block)
| call_pool_add_list (bs : list block)
| call_pool_remove (bs : list block)
| call_pool_prune (top_height : nat)
| call_reorganize (fork_point : checkpoint) (incoming : list block)
| call_set_chain_state (previous : option chain_state)
| call_deliver (n : notification)
| call_log_fatal (ec : code).

(** The members of [block_organizer], with the part of [block_chain] that
    it reaches through [fast_chain_] (the database and [pool_state_]). *)
Record block_organizer : Type := mk_organizer {
  stopped_ : bool;
  database_ : block_database;
  pool_state_ : option chain_state;
  block_pool_ : block_pool;
  validator_stopped : bool;
  subscriber_ : reorganize_subscriber;
  journal : list call
}.

Definition with_stopped (v : bool) (s : block_organizer) : block_organizer :=
  mk_organizer v (database_ s) (pool_state_ s) (block_pool_ s)
    (validator_stopped s) (subscriber_ s) (journal s).

Definition with_database (v : block_database) (s : block_organizer)
  : block_organizer :=
  mk_organizer (stopped_ s) v (pool_state_ s) (block_pool_ s)
    (validator_stopped s) (subscriber_ s) (journal s).

Definition with_pool_state (v : option chain_state) (s : block_organizer)
  : block_organizer :=
  mk_organizer (stopped_ s) (database_ s) v (block_pool_ s)
    (validator_stopped s) (subscriber_ s) (journal s).

Definition with_block_pool (v : block_pool) (s : block_organizer)
  : block_organizer :=
  mk_organizer (stopped_ s) (database_ s) (pool_state_ s) v
    (validator_stopped s) (subscriber_ s) (journal s).

Definition with_validator_stopped (v : bool) (s : block_organizer)
  : block_organizer :=
  mk_organizer (stopped_ s) (database_ s) (pool_state_ s) (block_pool_ s)
    v (subscriber_ s) (journal s).

Definition with_subscriber (v : reorganize_subscriber) (s : block_organizer)
  : block_organizer :=
  mk_organizer (stopped_ s) (database_ s) (pool_state_ s) (block_pool_ s)
    (validator_stopped s) v (journal s).

Definition with_journal (v : list call) (s : block_organizer)
  : block_organizer :=
  mk_organizer (stopped_ s) (database_ s) (pool_state_ s) (block_pool_ s)
    (validator_stopped s) (subscriber_ s) v.

(** The organizer's methods run in a state monad over [block_organizer];
    [None] is undefined behaviour (a null [branch->top()] dereferenced).
    The completion handlers are called in sequence: the writer mutex held
    across [organize] and the promise on which it waits for the validator
    are not modelled, and the value of a method is the code it hands to its
    handler. *)
Definition M (A : Type) : Type := block_organizer -> option (A * block_organizer).

Definition ret {A : Type} (a : A) : M A := fun s => Some (a, s).

Definition bind {A B : Type} (m : M A) (f : A -> M B) : M B :=
  fun s => match m s with
           | None => None
           | Some (a, s') => f a s'
           end.

Definition undefined {A : Type} : M A := fun _ => None.

Definition get_state : M block_organizer := fun s => Some (s, s).

Definition modify (f : block_organizer -> block_organizer) : M unit :=
  fun s => Some (tt, f s).

Notation "x <- c1 ;; c2" := (bind c1 (fun x => c2))
  (at level 100, c1 at next level, right associativity).
Notation "c1 ;; c2" := (bind c1 (fun _ => c2))
  (at level 100, right associativity).

Definition record_call (c : call) : M unit :=
  modify (fun s => with_journal (journal s ++ [c]) s).

(** *** The pool operations, journalled *)

Definition do_pool_add (b : block) : M unit :=
  record_call (call_pool_add b) ;;
  modify (fun s => with_block_pool (pool_add b (block_pool_ s)) s).

Definition do_pool_add_list (bs : list block) : M unit :=
  record_call (call_pool_add_list bs) ;;
  modify (fun s => with_block_pool (pool_add_list bs (block_pool_ s)) s).

Definition do_pool_remove (bs : list block) : M unit :=
  record_call (call_pool_remove bs) ;;
  modify (fun s => with_block_pool (pool_remove bs (block_pool_ s)) s).

Definition do_pool_prune (top_height : nat) : M unit :=
  record_call (call_pool_prune top_height) ;;
  modify (fun s => with_block_pool (pool_prune top_height (block_pool_ s)) s).

(** *** The subscriber operations *)

Definition deliveries (ec : code) (height : nat) (incoming outgoing : list block)
    (handlers : list nat) : list call :=
  map (fun h => call_deliver (mk_notification h ec height incoming outgoing))
    handlers.

(** [subscriber_->invoke(...)] and [subscriber_->relay(...)]: every
    registered handler receives the event; handlers stay registered unless
    the subscriber is stopped. *)
Definition subscriber_invoke (ec : code) (height : nat)
    (incoming outgoing : list block) : M unit :=
  s <- get_state ;;
  modify (fun s => with_journal
            (journal s ++
               deliveries ec height incoming outgoing (subscriptions (subscriber_ s))) s) ;;
  if subscriber_stopped (subscriber_ s)
  then modify (with_subscriber (mk_subscriber true []))
  else ret tt.

Definition subscriber_stop : M unit :=
  modify (fun s => with_subscriber
            (mk_subscriber true (subscriptions (subscriber_ s))) s).

Definition subscriber_start : M unit :=
  modify (fun s => with_subscriber
            (mk_subscriber false (subscriptions (subscriber_ s))) s).

(** [subscriber_->subscribe(handler, service_stopped, 0, {}, {})]. *)
Definition subscriber_subscribe (handler : nat) : M unit :=
  s <- get_state ;;
  if subscriber_stopped (subscriber_ s)
  then record_call
         (call_deliver (mk_notification handler service_stopped 0 [] []))
  else modify (with_subscriber
                 (mk_subscriber false (subscriptions (subscriber_ s) ++ [handler]))).

(* ------------------------------------------------------------------ *)
(** ** The organizer *)

(** Whether another thread calls [block_organizer::stop] while the
    organizer is suspended in a validator phase. *)
Record schedule : Type := mk_schedule {
  stop_during_accept : bool;
  stop_during_connect : bool
}.

Definition undisturbed : schedule := mk_schedule false false.

Section Organizer.

(** The collaborators whose code is not among the sources: the work
    function of the core library, the three validator phases, the path walk
    of the block pool and the chain state populator. *)
Variable proof : Z -> Z.
Variable check : block -> code.
Variable accept : block_database -> branch -> code.
Variable connect : block_database -> branch -> code.
Variable get_path : block_pool -> block -> branch.
Variable populate : option chain_state -> option chain_state.

(** [block_organizer::start]. *)
Definition start : M bool :=
  modify (with_stopped false) ;;
  subscriber_start ;;
  modify (with_validator_stopped false) ;;
  ret true.

(** [block_organizer::stop]. *)
Definition stop : M bool :=
  modify (with_validator_stopped true) ;;
  subscriber_stop ;;
  subscriber_invoke service_stopped 0 [] [] ;;
  modify (with_stopped true) ;;
  ret true.

(** [block_organizer::subscribe_reorganize]. *)
Definition subscribe_reorganize (handler : nat) : M unit :=
  subscriber_subscribe handler.

(** [block_organizer::notify_reorganize]. *)
Definition notify_reorganize (branch_height : nat)
    (incoming original : list block) : M unit :=
  subscriber_invoke success branch_height incoming original.

(** [block_organizer::set_branch_height]: [None] is the [false] return. *)
Definition set_branch_height (db : block_database) (br : branch)
  : option branch :=
  match get_height db (branch_hash br) with
  | None => None
  | Some height => Some (branch_set_height height br)
  end.

(** [block_chain::set_chain_state]. *)
Definition set_chain_state (previous : option chain_state) : M unit :=
  record_call (call_set_chain_state previous) ;;
  modify (with_pool_state (populate previous)).

(** [block_chain::reorganize] with its completion [handle_reorganize]:
    the code handed to the organizer's handler, and the outgoing blocks. *)
Definition reorganize (fork_point : checkpoint) (incoming_blocks : list block)
  : M (code * list block) :=
  record_call (call_reorganize fork_point incoming_blocks) ;;
  match last incoming_blocks with
  | None => ret (operation_failed, [])
  | Some top =>
      s <- get_state ;;
      let '(ec, db, outgoing) :=
        database_reorganize (database_ s) fork_point incoming_blocks in
      modify (with_database db) ;;
      (if code_is_error ec then ret tt
       else set_chain_state (validation_state top)) ;;
      ret (ec, outgoing)
  end.

(** [block_organizer::handle_reorganized]. *)
Definition handle_reorganized (ec : code) (br : branch)
    (outgoing : list block) : M code :=
  if code_is_error ec then
    record_call (call_log_fatal ec) ;;
    ret ec
  else
    do_pool_remove (branch_blocks br) ;;
    do_pool_prune (branch_top_height br) ;;
    do_pool_add_list outgoing ;;
    notify_reorganize (branch_height br) (branch_blocks br) outgoing ;;
    ret success.

(** [block_organizer::handle_connect]. *)
Definition handle_connect (ec : code) (br : branch) : M code :=
  s <- get_state ;;
  if stopped_ s then ret service_stopped
  else if code_is_error ec then ret ec
  else
    match branch_top br with
    | None => undefined
    | Some top =>
        let top := set_validation (branch_top_height br) top in
        let annotated := annotate_top br in
        let first_height := branch_height br + 1 in
        let maximum := branch_work proof br in
        match get_branch_work proof (database_ s) maximum first_height with
        | None => ret operation_failed
        | Some threshold =>
            if (branch_work proof br <=? threshold)%Z then
              do_pool_add top ;;
              ret insufficient_work
            else
              r <- reorganize (branch_fork_point annotated)
                     (branch_blocks annotated) ;;
              handle_reorganized r.1 annotated r.2
        end
    end.

(** A validator phase: the call is journalled, its code is computed from
    the store, and a concurrent [stop] may land before the completion
    handler runs. *)
Definition run_phase (c : call) (ec : code) (stop_lands : bool) : M code :=
  record_call c ;;
  (if stop_lands then stop ;; ret tt else ret tt) ;;
  ret ec.

(** [block_organizer::handle_accept]. *)
Definition handle_accept (sched : schedule) (ec : code) (br : branch)
  : M code :=
  s <- get_state ;;
  if stopped_ s then ret service_stopped
  else if code_is_error ec then ret ec
  else
    ec' <- run_phase (call_connect br) (connect (database_ s) br)
             (stop_during_connect sched) ;;
    handle_connect ec' br.

(** [block_organizer::organize]: the code handed to the caller's handler. *)
Definition organize (sched : schedule) (blk : block) : M code :=
  s <- get_state ;;
  if stopped_ s then ret service_stopped
  else
    record_call (call_check blk) ;;
    let ec := check blk in
    if code_is_error ec then ret ec
    else
      let br := get_path (block_pool_ s) blk in
      if branch_empty br || get_block_exists (database_ s) (hash blk)
      then ret duplicate_block
      else
        match set_branch_height (database_ s) br with
        | None => ret orphan_block
        | Some br =>
            ec' <- run_phase (call_accept br) (accept (database_ s) br)
                     (stop_during_accept sched) ;;
            handle_accept sched ec' br
        end.

(** Consecutive [organize] calls, each undisturbed. *)
Fixpoint organize_all (blks : list block) : M (list code) :=
  match blks with
  | [] => ret []
  | blk :: rest =>
      ec <- organize undisturbed blk ;;
      ecs <- organize_all rest ;;
      ret (ec :: ecs)
  end.

End Organizer.

(* ------------------------------------------------------------------ *)
(** ** Safe chain: sequence-locked reads *)

(** Modelled from the spec: the sequence lock of the database (not among
    the sources), an optimistic read protocol that detects concurrent writes
    through a sequence number: a handle is write locked when it is odd, and
    a read is valid when the sequence still equals the handle.

    One attempt of a reader, as the concurrently running writers shape it:
    the handle [begin_read] returns, the store contents the reads see, the
    block pool as the organizer holds it meanwhile, and the sequence by the
    time of [is_read_valid]. *)
Record read_attempt : Type := mk_attempt {
  begin_read : N;
  store_seen : block_database;
  pool_seen : block_pool;
  sequence_at_finish : N
}.

Definition is_write_locked (a : read_attempt) : bool := N.odd (begin_read a).

Definition is_read_valid (a : read_attempt) : bool :=
  (begin_read a =? sequence_at_finish a)%N.

(** [spin_lock_sleep_(asio::milliseconds(1))]. *)
Definition spin_lock_sleep_ : nat := 1.

(** What a read does that its caller or the scheduler can observe. *)
Inductive read_event (R : Type) : Type :=
| ev_begin_read (sequence : N)
| ev_handler (result : R)
| ev_sleep (milliseconds : nat).

Arguments ev_begin_read {R} sequence.
Arguments ev_handler {R} result.
Arguments ev_sleep {R} milliseconds.

(** [block_chain::finish_read(sequence, handler, args...)]. *)
Definition finish_read {R : Type} (a : read_attempt) (args : R)
  : bool * list (read_event R) :=
  if negb (is_read_valid a) then (false, [])
  else (true, [ev_handler args]).

(** [block_chain::read_serial(reader)]: the [while (true)] loop, run
    against the attempts the environment grants.  [captured] is what the
    reader closure holds by reference or pointer and may edit.  The result
    is whether the loop has ended ([break]) within these attempts, the
    events, and the captured state. *)
Fixpoint read_serial {S R : Type}
    (reader : S -> read_attempt -> bool * list (read_event R) * S)
    (captured : S) (attempts : list read_attempt)
  : bool * list (read_event R) * S :=
  match attempts with
  | [] => (false, [], captured)
  | a :: rest =>
      if is_write_locked a then
        let later := read_serial reader captured rest in
        (later.1.1,
         ev_begin_read (begin_read a) :: ev_sleep spin_lock_sleep_ :: later.1.2,
         later.2)
      else
        let finished := reader captured a in
        if finished.1.1 then
          (true, ev_begin_read (begin_read a) :: finished.1.2, finished.2)
        else
          let later := read_serial reader finished.2 rest in
          (later.1.1,
           ev_begin_read (begin_read a) :: finished.1.2
             ++ ev_sleep spin_lock_sleep_ :: later.1.2,
           later.2)
  end.

(** The shape of every [do_fetch] closure of the safe chain: [body] reads
    the store (and may edit what the closure captured), then the closure
    returns [finish_read(slock, handler, args...)]. *)
Definition do_fetch {S R : Type} (body : S -> read_attempt -> S)
    (args : S -> read_attempt -> R)
  : S -> read_attempt -> bool * list (read_event R) * S :=
  fun captured a =>
    let captured' := body captured a in
    (finish_read a (args captured' a), captured').

(** The shape shared by the [fetch_*] queries: the stopped guard, then
    [read_serial] over a [do_fetch] closure that captures nothing it edits
    and hands the result of its reads to [finish_read]. *)
Definition fetch {R : Type} (stopped : bool) (stopped_args : R)
    (query : block_database -> R) (attempts : list read_attempt)
  : bool * list (read_event R) :=
  if stopped then (true, [ev_handler stopped_args])
  else (read_serial
          (do_fetch (fun (_ : unit) _ => tt) (fun _ a => query (store_seen a)))
          tt attempts).1.

(** [block_chain::fetch_block_height(hash, handler)]. *)
Definition fetch_block_height (stopped : bool) (h : hash_digest)
    (attempts : list read_attempt) : bool * list (read_event (code * nat)) :=
  fetch stopped (service_stopped, 0)
    (fun db => match blocks_get_hash db h with
               | Some (height, _) => (success, height)
               | None => (not_found, 0)
               end)
    attempts.

(** [block_chain::fetch_last_height(handler)]. *)
Definition fetch_last_height (stopped : bool)
    (attempts : list read_attempt) : bool * list (read_event (code * nat)) :=
  fetch stopped (service_stopped, 0)
    (fun db => match blocks_top db with
               | Some last_height => (success, last_height)
               | None => (not_found, 0)
               end)
    attempts.

(* ------------------------------------------------------------------ *)
(** ** fetch_locator_block_hashes, older and newer *)

(** [message::get_blocks]. *)
Record get_blocks : Type := mk_get_blocks {
  start_hashes : list hash_digest;
  stop_hash : hash_digest
}.

Inductive type_id : Type := type_block | type_transaction.

Definition inventory_vector : Type := (type_id * hash_digest)%type.

(** "Find the first block height": the height of the first start hash on
    our chain, or block 0. *)
Fixpoint locator_start (db : block_database) (hashes : list hash_digest)
  : nat :=
  match hashes with
  | [] => 0
  | h :: rest =>
      match blocks_get_hash db h with
      | Some (height, _) => height
      | None => locator_start db rest
      end
  end.

(** "Find the stop block height": [min] with the stop block's height when
    the stop hash is set and on chain. *)
Definition locator_stop (db : block_database) (locator : get_blocks)
    (stop : nat) : nat :=
  if decide (stop_hash locator = null_hash) then stop
  else match blocks_get_hash db (stop_hash locator) with
       | Some (height, _) => Nat.min height stop
       | None => stop
       end.

(** "Find the threshold block height": [max] with the threshold's height
    when the threshold is set and on chain. *)
Definition locator_threshold (db : block_database) (threshold : hash_digest)
    (start : nat) : nat :=
  if decide (threshold = null_hash) then start
  else match blocks_get_hash db threshold with
       | Some (height, _) => Nat.max height start
       | None => start
       end.

(** The older loop: [for (index = start + 1; index < stop; ++index)] with
    the [push_back] and the [break] both under [if (result)]. *)
Fixpoint build_hashes_older (db : block_database) (remaining index : nat)
  : list inventory_vector :=
  match remaining with
  | O => []
  | S remaining' =>
      match blocks_get db index with
      | Some result => [(type_block, hash result)]
      | None => build_hashes_older db remaining' (S index)
      end
  end.

(** The newer loop: [for (index = begin; index < stop; ++index)] with
    [break] on a missing record and [push_back] otherwise. *)
Fixpoint build_hashes_newer (db : block_database) (remaining index : nat)
  : list inventory_vector :=
  match remaining with
  | O => []
  | S remaining' =>
      match blocks_get db index with
      | None => []
      | Some result =>
          (type_block, hash result) :: build_hashes_newer db remaining' (S index)
      end
  end.

(** [size_t] of the 64-bit build: its largest value. *)
Definition max_size_t : N := (2 ^ 64 - 1)%N.

(** The exceptions that leave the closures below. *)
Inductive exception : Type :=
| overflow_error
| length_error.

(** [safe_add] of the core library (not among the sources), as the
    closures use it on [size_t]: it throws [overflow_error] when the sum
    does not fit. *)
Definition safe_add (left right : nat) : exception + nat :=
  if (N.of_nat left + N.of_nat right <=? max_size_t)%N then inr (left + right)
  else inl overflow_error.

(** [floor_subtract] of the core library: zero when the subtrahend is not
    below the minuend. *)
Definition floor_subtract (minuend subtrahend : nat) : nat :=
  minuend - subtrahend.

(** [std::vector::reserve(count)] on the fresh inventory list: it throws
    [length_error] when [count] is above [max_size()], which the
    implementation of the library fixes and which is [max_reserve] here.
    Memory is taken as sufficient, as for every allocation of the
    program. *)
Definition reserve (max_reserve : N) (count : nat) : exception + unit :=
  if (N.of_nat count <=? max_reserve)%N then inr tt else inl length_error.

(** The [do_fetch] closure of the older [fetch_locator_block_hashes]: the
    inventory handed to [finish_read], or the exception that leaves the
    closure.  [limit] is a [size_t]: a larger one overflows the first
    [safe_add].  Heights are those of stored blocks, so that [start + 1]
    does not wrap. *)
Definition locator_block_hashes_older (max_reserve : N) (locator : get_blocks)
    (threshold : hash_digest) (limit : nat) (db : block_database)
  : exception + list inventory_vector :=
  let start := locator_start db (start_hashes locator) in
  match safe_add start limit with
  | inl e => inl e
  | inr sum =>
      match safe_add sum 1 with
      | inl e => inl e
      | inr stop =>
          let stop := locator_stop db locator stop in
          let start := locator_threshold db threshold start in
          match reserve max_reserve stop with
          | inl e => inl e
          | inr _ =>
              inr (build_hashes_older db (stop - (start + 1)) (start + 1))
          end
      end
  end.

(** The [do_fetch] closure of the newer [fetch_locator_block_hashes]. *)
Definition locator_block_hashes_newer (max_reserve : N) (locator : get_blocks)
    (threshold : hash_digest) (limit : nat) (db : block_database)
  : exception + list inventory_vector :=
  let start := locator_start db (start_hashes locator) in
  match safe_add start 1 with
  | inl e => inl e
  | inr begin =>
      match safe_add begin limit with
      | inl e => inl e
      | inr stop =>
          let stop := locator_stop db locator stop in
          let start := locator_threshold db threshold start in
          let size := floor_subtract stop begin in
          match reserve max_reserve size with
          | inl e => inl e
          | inr _ => inr (build_hashes_newer db (stop - begin) begin)
          end
      end
  end.

(** [fetch] for a closure whose reads can throw.  The exception leaves
    [do_fetch] in the first attempt that is not write locked, and with it
    [read_serial] and the query: no handler is called.  The closure keeps
    the exception in what it captured and [read_serial] goes no further. *)
Definition fetch_or_throw {R : Type} (stopped : bool) (stopped_args : R)
    (query : block_database -> exception + R) (attempts : list read_attempt)
  : exception + bool * list (read_event R) :=
  if stopped then inr (true, [ev_handler stopped_args])
  else
    let run :=
      read_serial
        (fun (thrown : option exception) a =>
           match query (store_seen a) with
           | inl e => ((true, []), Some e)
           | inr args => (finish_read a args, thrown)
           end)
        None attempts in
    match run.2 with
    | Some e => inl e
    | None => inr run.1
    end.

(** The two [fetch_locator_block_hashes]; [None] is the [nullptr] handed
    over with [service_stopped]. *)
Definition fetch_locator_block_hashes_older (max_reserve : N) (stopped : bool)
    (locator : get_blocks) (threshold : hash_digest) (limit : nat)
    (attempts : list read_attempt)
  : exception + bool * list (read_event (code * option (list inventory_vector))) :=
  fetch_or_throw stopped (service_stopped, None)
    (fun db =>
       match locator_block_hashes_older max_reserve locator threshold limit db with
       | inl e => inl e
       | inr hashes => inr (success, Some hashes)
       end)
    attempts.

Definition fetch_locator_block_hashes_newer (max_reserve : N) (stopped : bool)
    (locator : get_blocks) (threshold : hash_digest) (limit : nat)
    (attempts : list read_attempt)
  : exception + bool * list (read_event (code * option (list inventory_vector))) :=
  fetch_or_throw stopped (service_stopped, None)
    (fun db =>
       match locator_block_hashes_newer max_reserve locator threshold limit db with
       | inl e => inl e
       | inr hashes => inr (success, Some hashes)
       end)
    attempts.

(** The results a caller's handler has received. *)
Definition handled {R : Type} (events : list (read_event R)) : list R :=
  omap (fun e => match e with ev_handler r => Some r | _ => None end) events.

(** What a query that can throw has handed to its caller's handler, or the
    exception that reached the caller instead. *)
Definition delivered {R : Type}
    (outcome : exception + bool * list (read_event R)) : exception + list R :=
  match outcome with
  | inl e => inl e
  | inr run => inr (handled run.2)
  end.

(* ------------------------------------------------------------------ *)
(** ** filter_blocks *)

Definition is_block_type (v : inventory_vector) : bool :=
  match v.1 with type_block => true | type_transaction => false end.

(** Modelled from the spec: [block_pool::filter(inventory)]: remove from
    an inventory request any hashes the pool holds. *)
Definition pool_filter (pool : block_pool) (inventories : list inventory_vector)
  : list inventory_vector :=
  List.filter (fun v => negb (pool_contains pool v.2)) inventories.

(** The erase loop of [filter_blocks]:
    [if (it->is_block_type() && blocks.get(it->hash())) erase]. *)
Definition erase_known_blocks (db : block_database)
    (inventories : list inventory_vector) : list inventory_vector :=
  List.filter (fun v => negb (is_block_type v && get_block_exists db v.2))
    inventories.

(** [block_chain::filter_blocks(message, handler)]: the closure holds the
    caller's message by pointer and edits its inventories in place; the
    result carries the events and the message as the caller finds it. *)
Definition filter_blocks (stopped : bool)
    (message : list inventory_vector) (attempts : list read_attempt)
  : bool * list (read_event code) * list inventory_vector :=
  if stopped then (true, [ev_handler service_stopped], message)
  else
    read_serial
      (do_fetch (fun inventories a =>
                   erase_known_blocks (store_seen a)
                     (pool_filter (pool_seen a) inventories))
                (fun _ _ => success))
      message attempts.

(* ------------------------------------------------------------------ *)
(** ** The sequence-lock protocol, stated on its own *)

(** An attempt is granted when its handle is not write locked and the
    sequence is unchanged when the reads are done. *)
Definition granted (a : read_attempt) : bool :=
  negb (is_write_locked a) && is_read_valid a.

(** The attempts that fail before the first granted one, and that one. *)
Fixpoint wait_for_grant (attempts : list read_attempt)
  : list read_attempt * option read_attempt :=
  match attempts with
  | [] => ([], None)
  | a :: rest =>
      if granted a then ([], Some a)
      else let w := wait_for_grant rest in (a :: w.1, w.2)
  end.

(** What the closure captured after its body ran in every attempt that was
    not write locked. *)
Fixpoint replay {S : Type} (body : S -> read_attempt -> S) (captured : S)
    (attempts : list read_attempt) : S :=
  match attempts with
  | [] => captured
  | a :: rest =>
      replay body (if is_write_locked a then captured else body captured a) rest
  end.

(** The events of the failed attempts: a handle, then the sleep. *)
Definition retries {R : Type} (failed : list read_attempt)
  : list (read_event R) :=
  flat_map (fun a => [ev_begin_read (begin_read a); ev_sleep spin_lock_sleep_])
    failed.

(* ------------------------------------------------------------------ *)
(** ** Concrete stores and collaborators used by the worked examples *)

(** A work function for the examples: the work of a block is its [bits]. *)
Definition example_proof (b : Z) : Z := b.

Definition plain_block (h previous : hash_digest) (b : Z) : block :=
  mk_block h previous b 0 success None.

Definition genesis : block := plain_block 1%N null_hash 1%Z.
Definition block_a1 : block := plain_block 2%N 1%N 5%Z.
Definition block_a2 : block := plain_block 3%N 2%N 3%Z.
Definition block_a3 : block := plain_block 4%N 3%N 2%Z.

(** A confirmed chain of three blocks: genesis, then work 5, then work 3. *)
Definition example_chain : block_database :=
  [Some genesis; Some block_a1; Some block_a2].

(** A confirmed chain of four blocks. *)
Definition example_chain4 : block_database :=
  [Some genesis; Some block_a1; Some block_a2; Some block_a3].

(** A sibling of [block_a2] (same parent, same work), and its child. *)
Definition block_b2 : block := plain_block 13%N 2%N 3%Z.
Definition block_b3 : block := plain_block 14%N 13%N 2%Z.

(** A block whose parent is neither pooled nor confirmed. *)
Definition block_orphan : block := plain_block 21%N 20%N 4%Z.

(** A validator that accepts every block. *)
Definition example_check (b : block) : code := success.
Definition example_accept (db : block_database) (br : branch) : code := success.
Definition example_connect (db : block_database) (br : branch) : code := success.

(** A path walk for the examples: follow the parent links through the
    pool, oldest block first; empty when the block is pooled already. *)
Fixpoint walk_path (fuel : nat) (pool : block_pool) (b : block)
    (newer : list block) : branch :=
  match fuel with
  | O => mk_branch (previous_block_hash b) 0 (b :: newer)
  | S fuel' =>
      match pool_entries pool !! previous_block_hash b with
      | Some parent => walk_path fuel' pool (entry_block parent) (b :: newer)
      | None => mk_branch (previous_block_hash b) 0 (b :: newer)
      end
  end.

Definition example_get_path (pool : block_pool) (b : block) : branch :=
  if pool_contains pool (hash b) then mk_branch null_hash 0 []
  else walk_path (size (pool_entries pool)) pool b [].

Definition example_populate (previous : option chain_state)
  : option chain_state := previous.

Definition example_pool : block_pool := mk_block_pool 100 ∅.

(** A started organizer over [example_chain] with two subscribers. *)
Definition example_organizer : block_organizer :=
  mk_organizer false example_chain None example_pool false
    (mk_subscriber false [7; 9]) [].

(** The same organizer before [start] (or after [stop]). *)
Definition idle_organizer : block_organizer :=
  mk_organizer true example_chain None example_pool true
    (mk_subscriber true []) [].


(** An undisturbed attempt over the four-block chain. *)
Definition attempt_chain4 : read_attempt :=
  mk_attempt 8 example_chain4 example_pool 8.

(** A locator with no start hash on our chain and no stop hash. *)
Definition empty_locator : get_blocks := mk_get_blocks [] null_hash.

(** The number of [reorganize] calls in a journal. *)
Definition is_reorganize (c : call) : bool :=
  match c with call_reorganize _ _ => true | _ => false end.

Definition reorganize_calls (l : list call) : nat :=
  length (List.filter is_reorganize l).

(* ------------------------------------------------------------------ *)
(** ** Further fast chain readers *)

(** [block_chain::get_block_hash(out_hash, height)]. *)
Definition get_block_hash (db : block_database) (height : nat)
  : option hash_digest :=
  match blocks_get db height with
  | Some result => Some (hash result)
  | None => None
  end.

(** [block_chain::get_bits(out_bits, height)]. *)
Definition get_bits (db : block_database) (height : nat) : option Z :=
  match blocks_get db height with
  | Some result => Some (bits result)
  | None => None
  end.

(** [block_chain::get_last_height(out_height)]. *)
Definition get_last_height (db : block_database) : option nat := blocks_top db.

(* ------------------------------------------------------------------ *)
(** ** fetch_block_locator *)

(** The [for (const auto height: heights)] loop of [fetch_block_locator]:
    a missing record sets [not_found], clears the hashes and leaves the
    loop; otherwise the header hash is pushed back. *)
Fixpoint locator_loop (db : block_database) (heights : list nat)
    (hashes : list hash_digest) : code * list hash_digest :=
  match heights with
  | [] => (success, hashes)
  | height :: rest =>
      match blocks_get db height with
      | None => (not_found, [])
      | Some result => locator_loop db rest (hashes ++ [hash result])
      end
  end.

(** The [do_fetch] closure of [fetch_block_locator]: the code and the
    message handed to [finish_read]; [None] is the [nullptr]. *)
Definition block_locator (heights : list nat) (db : block_database)
  : code * option (list hash_digest) :=
  match blocks_top db with
  | None => (operation_failed, None)
  | Some _ =>
      let result := locator_loop db heights [] in
      (result.1, Some result.2)
  end.

(** [block_chain::fetch_block_locator(heights, handler)]. *)
Definition fetch_block_locator (stopped : bool) (heights : list nat)
    (attempts : list read_attempt)
  : bool * list (read_event (code * option (list hash_digest))) :=
  fetch stopped (service_stopped, None) (block_locator heights) attempts.

(* ------------------------------------------------------------------ *)
(** ** Further collaborators for the worked examples *)

(** A validator whose accept phase rejects every branch. *)
Definition rejecting_accept (db : block_database) (br : branch) : code :=
  validate_failed 1.

(** A validator whose connect phase rejects every branch. *)
Definition rejecting_connect (db : block_database) (br : branch) : code :=
  validate_failed 2.

(** A populator that cannot produce a chain state. *)
Definition failing_populate (previous : option chain_state)
  : option chain_state := None.

(** A store with a gap at height 2. *)
Definition gapped_chain : block_database :=
  [Some genesis; Some block_a1; None; Some block_a3].

(** An undisturbed attempt over [example_chain]. *)
Definition attempt_chain : read_attempt :=
  mk_attempt 2 example_chain example_pool 2.

(** What the closure of [filter_blocks] does to the inventories in one
    attempt. *)
Definition filter_blocks_body (inventories : list inventory_vector)
    (a : read_attempt) : list inventory_vector :=
  erase_known_blocks (store_seen a) (pool_filter (pool_seen a) inventories).

(* ------------------------------------------------------------------ *)
(** ** The writers of the older block_chain *)

(** The calls made on the database while writing, in program order. *)
Inductive database_call : Type :=
| db_flush_lock
| db_flush_unlock
| db_begin_write (flush : bool)
| db_end_write (flush : bool)
| db_insert (b : block) (height : nat)
| db_push (b : block) (height : nat)
| db_pop_above (fork_hash : hash_digest).

Module Writers.
Section Database.

(** The database (not among the sources) behind its interface: every
    operation gives its [bool] and the database it leaves. *)
Variable D : Type.
Variable flush_lock : D -> bool * D.
Variable flush_unlock : D -> bool * D.
Variable begin_write : bool -> D -> bool * D.
Variable end_write : bool -> D -> bool * D.
Variable data_insert : block -> nat -> D -> bool * D.
Variable data_push : block -> nat -> D -> bool * D.
Variable data_pop_above : hash_digest -> D -> bool * list block * D.

(** A writer runs over the database and the calls made so far. *)
Definition W (A : Type) : Type :=
  D * list database_call -> A * (D * list database_call).

Definition call (c : database_call) (op : D -> bool * D) : W bool :=
  fun st => let r := op st.1 in (r.1, (r.2, st.2 ++ [c])).

(** [block_chain::write_serial(writer, flush)].  [X] is what the writer
    leaves in the variables it captured by reference, [untouched] their
    value when the writer does not run. *)
Definition write_serial {X : Type} (untouched : X) (writer : W (bool * X))
    (flush : bool) : W (bool * X) :=
  fun st =>
    let begin := call (db_begin_write flush) (begin_write flush) st in
    let write := if begin.1 then writer begin.2 else ((false, untouched), begin.2) in
    let ended := call (db_end_write flush) (end_write flush) write.2 in
    ((begin.1 && write.1.1 && ended.1, write.1.2), ended.2).

(** [block_chain::do_insert] and [block_chain::insert]. *)
Definition do_insert (b : block) (height : nat) : W (bool * unit) :=
  fun st => let r := call (db_insert b height) (data_insert b height) st in
            ((r.1, tt), r.2).

Definition insert (b : block) (height : nat) (flush : bool) : W bool :=
  fun st => let r := write_serial tt (do_insert b height) flush st in
            (r.1.1, r.2).

(** [block_chain::do_push] and [block_chain::push]: every block of the
    list is handed to the database with the same [height]. *)
Definition do_push (b : block) (height : nat) : W (bool * unit) :=
  fun st => let r := call (db_push b height) (data_push b height) st in
            ((r.1, tt), r.2).

Fixpoint push (blocks : list block) (height : nat) (flush : bool) : W bool :=
  fun st =>
    match blocks with
    | [] => (true, st)
    | b :: rest =>
        let r := write_serial tt (do_push b height) flush st in
        if r.1.1 then push rest height flush r.2 else (false, r.2)
    end.

(** [block_chain::do_pop] and [block_chain::pop]: the popped blocks reach
    [out_blocks] only when the serial write succeeded. *)
Definition do_pop (fork_hash : hash_digest) : W (bool * list block) :=
  fun st =>
    let r := data_pop_above fork_hash st.1 in
    (r.1, (r.2, st.2 ++ [db_pop_above fork_hash])).

Definition pop (out_blocks : list block) (fork_hash : hash_digest)
    (flush : bool) : W (bool * list block) :=
  fun st =>
    let r := write_serial [] (do_pop fork_hash) flush st in
    if r.1.1 then ((true, r.1.2), r.2) else ((false, out_blocks), r.2).

(** [block_chain::begin_writes] and [block_chain::end_writes]. *)
Definition begin_writes : W bool := call db_flush_lock flush_lock.
Definition end_writes : W bool := call db_flush_unlock flush_unlock.

(** [block_chain::swap]: the [&&] chain
    [(!flush || begin_writes()) && pop(...) && push(...) && (!flush || end_writes())]. *)
Definition swap (out_blocks in_blocks : list block) (fork_height : nat)
    (fork_hash : hash_digest) (flush : bool) : W (bool * list block) :=
  fun st =>
    let locked := if flush then begin_writes st else (true, st) in
    if locked.1 then
      let popped := pop out_blocks fork_hash false locked.2 in
      if popped.1.1 then
        let pushed := push in_blocks (S fork_height) false popped.2 in
        if pushed.1 then
          let unlocked := if flush then end_writes pushed.2 else (true, pushed.2) in
          ((unlocked.1, popped.1.2), unlocked.2)
        else ((false, popped.1.2), pushed.2)
      else ((false, popped.1.2), popped.2)
    else ((false, out_blocks), locked.2).

End Database.
End Writers.

(** The blocks and heights of the [push] calls of a journal. *)
Definition pushes (calls : list database_call) : list (block * nat) :=
  omap (fun c => match c with db_push b h => Some (b, h) | _ => None end) calls.

(** A journal of serial writes: every data call sits between a
    [begin_write] and the [end_write] that follows it, the brackets do not
    nest, the last one is closed and no flush lock call occurs. *)
Fixpoint bracketed (inside : bool) (calls : list database_call) : bool :=
  match calls with
  | [] => negb inside
  | db_begin_write _ :: rest => negb inside && bracketed true rest
  | db_end_write _ :: rest => inside && bracketed false rest
  | db_flush_lock :: _ => false
  | db_flush_unlock :: _ => false
  | _ :: rest => inside && bracketed true rest
  end.

(** A database for the examples: a block index on which [push] checks the
    intended height and the locks always succeed; popping either fails or
    finds nothing above the fork. *)
Definition example_lock (db : block_database) : bool * block_database :=
  (true, db).

Definition example_bracket (flush : bool) (db : block_database)
  : bool * block_database := (true, db).

Definition example_data_push (b : block) (height : nat) (db : block_database)
  : bool * block_database :=
  match push db b height with
  | Some db' => (true, db')
  | None => (false, db)
  end.

Definition example_pop_fails (fork_hash : hash_digest) (db : block_database)
  : bool * list block * block_database := (false, [], db).

Definition example_pop_none_above (fork_hash : hash_digest)
    (db : block_database) : bool * list block * block_database :=
  (true, [], db).

(* ------------------------------------------------------------------ *)
(** ** integer_sequence.hpp: make_index_sequence *)

(** [detail::repeat<integer_sequence<T, N...>, _Extra...>::type]: the
    sequence, seven shifted copies of it, then the extra indexes. *)
Definition repeat_sequence (ns extra : list nat) : list nat :=
  ns ++ map (fun n => 1 * length ns + n) ns
     ++ map (fun n => 2 * length ns + n) ns
     ++ map (fun n => 3 * length ns + n) ns
     ++ map (fun n => 4 * length ns + n) ns
     ++ map (fun n => 5 * length ns + n) ns
     ++ map (fun n => 6 * length ns + n) ns
     ++ map (fun n => 7 * length ns + n) ns
     ++ extra.

(** The extra indexes [detail::parity<N % 8>::pmake<N>] passes to
    [repeat]. *)
Definition parity_extra (parity N : nat) : list nat :=
  match parity with
  | 0 => []
  | 1 => [N - 1]
  | 2 => [N - 2; N - 1]
  | 3 => [N - 3; N - 2; N - 1]
  | 4 => [N - 4; N - 3; N - 2; N - 1]
  | 5 => [N - 5; N - 4; N - 3; N - 2; N - 1]
  | 6 => [N - 6; N - 5; N - 4; N - 3; N - 2; N - 1]
  | _ => [N - 7; N - 6; N - 5; N - 4; N - 3; N - 2; N - 1]
  end.

(** [detail::make<N>::type]: the eight explicit specializations, and
    otherwise [parity<N % 8>::pmake<N>], which instantiates [make<N / 8>].
    [depth] bounds the nesting of the instantiations. *)
Fixpoint make (depth N : nat) : list nat :=
  match N with
  | 0 => []
  | 1 => [0]
  | 2 => [0; 1]
  | 3 => [0; 1; 2]
  | 4 => [0; 1; 2; 3]
  | 5 => [0; 1; 2; 3; 4]
  | 6 => [0; 1; 2; 3; 4; 5]
  | 7 => [0; 1; 2; 3; 4; 5; 6]
  | _ =>
      match depth with
      | O => []
      | S depth' =>
          repeat_sequence (make depth' (N / 8)) (parity_extra (N mod 8) N)
      end
  end.

(** [make_index_sequence<N>]: [N] nested instantiations always suffice. *)
Definition make_index_sequence (N : nat) : list nat := make N N.

(* ================================================================== *)
(** * Properties *)

(** ** 256-bit arithmetic *)

Lemma uint256_modulus_pos : (0 < uint256_modulus)%Z.
Proof. unfold uint256_modulus. lia. Qed.

Lemma to_uint256_range (z : Z) : (0 <= to_uint256 z < uint256_modulus)%Z.
Proof. unfold to_uint256. apply Z.mod_pos_bound, uint256_modulus_pos. Qed.

Lemma to_uint256_small (z : Z) :
  (0 <= z < uint256_modulus)%Z -> to_uint256 z = z.
Proof. intros Hz. unfold to_uint256. now apply Z.mod_small. Qed.

Lemma to_uint256_le (z : Z) : (0 <= z)%Z -> (to_uint256 z <= z)%Z.
Proof.
  intros Hz. unfold to_uint256.
  apply Z.mod_le; [exact Hz | exact uint256_modulus_pos].
Qed.

Lemma uint256_add_shift (a p s : Z) :
  to_uint256 (uint256_add a p + s) = to_uint256 (a + (p + s)).
Proof.
  unfold uint256_add, to_uint256.
  rewrite Z.add_mod_idemp_l by (pose proof uint256_modulus_pos; lia).
  f_equal. lia.
Qed.

Section FastChainFacts.

Variable proof : Z -> Z.
Variable difficulty : Z -> Z.

Lemma block_proof_range (b : Z) :
  (0 <= block_proof proof b < uint256_modulus)%Z.
Proof. apply to_uint256_range. Qed.

Lemma work_between_nonneg (db : block_database) (count height : nat) (s : Z) :
  work_between proof db height count = Some s -> (0 <= s)%Z.
Proof.
  revert height s. induction count as [|count IH]; intros height s; simpl.
  - intros [= <-]. lia.
  - destruct (blocks_get db height) as [r|]; [|discriminate].
    destruct (work_between proof db (S height) count) as [t|] eqn:Ht;
      [|discriminate].
    intros [= <-]. specialize (IH _ _ Ht).
    pose proof (block_proof_range (bits r)). lia.
Qed.

(** [work_between] is defined exactly when every height of the range can
    be read. *)
Lemma work_between_readable (db : block_database) (count height : nat) :
  is_Some (work_between proof db height count) <->
  (forall h, height <= h < height + count -> is_Some (blocks_get db h)).
Proof.
  revert height. induction count as [|count IH]; intros height; simpl.
  - split; [intros _ h Hh; lia | intros _; eauto].
  - split.
    + intros Hs h Hh.
      destruct (blocks_get db height) as [r|] eqn:Hr;
        [|destruct Hs; discriminate].
      destruct (decide (h = height)) as [->|Hne]; [rewrite Hr; eauto|].
      apply (proj1 (IH (S height))); [|lia].
      destruct (work_between proof db (S height) count); [eauto|].
      destruct Hs; discriminate.
    + intros Hall.
      destruct (Hall height ltac:(lia)) as [r ->].
      destruct (proj2 (IH (S height))) as [t ->]; [|eauto].
      intros h Hh. apply Hall. lia.
Qed.

(** The loop invariant of [get_branch_work]: what was accumulated is a
    prefix sum, every shorter prefix was still below [maximum], and the loop
    ended at the tip or with the sum no longer below [maximum]. *)
Lemma branch_work_loop_sound (db : block_database) (maximum : Z)
    (n height : nat) (acc w : Z) :
  (0 <= acc < uint256_modulus)%Z ->
  branch_work_loop proof db maximum n height acc = Some w ->
  exists (k : nat) (s : Z),
    k <= n /\
    work_between proof db height k = Some s /\
    w = to_uint256 (acc + s) /\
    (forall j t, j < k -> work_between proof db height j = Some t ->
                 (to_uint256 (acc + t) < maximum)%Z) /\
    (k = n \/ (maximum <= w)%Z).
Proof.
  revert height acc. induction n as [|n IH]; intros height acc Hacc; simpl.
  - intros [= <-]. exists 0, 0%Z. simpl.
    repeat split; [lia | | intros; lia | now left].
    rewrite Z.add_0_r. symmetry. now apply to_uint256_small.
  - destruct (acc <? maximum)%Z eqn:Hlt.
    + destruct (blocks_get db height) as [r|] eqn:Hr; [|discriminate].
      intros Hloop.
      apply IH in Hloop; [|apply to_uint256_range].
      destruct Hloop as (k & s & Hk & Hs & Hw & Hpre & Hend).
      exists (S k), (block_proof proof (bits r) + s)%Z. simpl.
      rewrite Hr, Hs. repeat split.
      * lia.
      * rewrite Hw. apply uint256_add_shift.
      * intros j t Hj. destruct j as [|j]; simpl.
        -- intros [= <-]. rewrite Z.add_0_r, to_uint256_small by exact Hacc.
           now apply Z.ltb_lt.
        -- rewrite Hr.
           destruct (work_between proof db (S height) j) as [u|] eqn:Hu;
             [|discriminate].
           intros [= <-]. rewrite <- uint256_add_shift.
           apply (Hpre j u); [lia | exact Hu].
      * destruct Hend as [-> | Hmax]; [now left | now right].
    + intros [= <-]. exists 0, 0%Z. simpl.
      repeat split; [lia | | intros; lia |].
      * rewrite Z.add_0_r. symmetry. now apply to_uint256_small.
      * right. now apply Z.ltb_ge.
Qed.

Lemma branch_work_loop_fails (db : block_database) (maximum : Z)
    (n height : nat) (acc : Z) :
  branch_work_loop proof db maximum n height acc = None ->
  exists h, height <= h < height + n /\ blocks_get db h = None.
Proof.
  revert height acc. induction n as [|n IH]; intros height acc; simpl.
  - discriminate.
  - destruct (acc <? maximum)%Z; [|discriminate].
    destruct (blocks_get db height) as [r|] eqn:Hr.
    + intros Hloop. apply IH in Hloop. destruct Hloop as (h & Hh & Hnone).
      exists h. split; [lia | exact Hnone].
    + intros _. exists height. split; [lia | exact Hr].
Qed.

(** When the whole range is readable and its total is below [maximum] the
    loop never stops early. *)
Lemma branch_work_loop_total (db : block_database) (maximum : Z)
    (n height : nat) (acc s : Z) :
  (0 <= acc < uint256_modulus)%Z ->
  work_between proof db height n = Some s ->
  (acc + s < maximum)%Z ->
  branch_work_loop proof db maximum n height acc = Some (to_uint256 (acc + s)).
Proof.
  revert height acc s. induction n as [|n IH]; intros height acc s Hacc; simpl.
  - intros [= <-] _. rewrite Z.add_0_r. f_equal. symmetry.
    now apply to_uint256_small.
  - destruct (blocks_get db height) as [r|]; [|discriminate].
    destruct (work_between proof db (S height) n) as [t|] eqn:Ht;
      [|discriminate].
    intros [= <-] Hlt.
    pose proof (work_between_nonneg _ _ _ _ Ht) as Ht0.
    pose proof (block_proof_range (bits r)) as Hp.
    assert (Hcont : (acc <? maximum)%Z = true) by (apply Z.ltb_lt; lia).
    rewrite Hcont.
    rewrite (IH (S height) _ t); [| apply to_uint256_range | exact Ht |].
    + f_equal. apply uint256_add_shift.
    + unfold uint256_add.
      pose proof (to_uint256_le (acc + block_proof proof (bits r))). lia.
Qed.

Lemma fork_difficulty_loop_total (db : block_database)
    (n height : nat) (acc s : Z) :
  (forall b, difficulty b = proof b) ->
  (0 <= acc < uint256_modulus)%Z ->
  work_between proof db height n = Some s ->
  fork_difficulty_loop difficulty db n height acc = Some (to_uint256 (acc + s)).
Proof.
  intros Hsame. revert height acc s.
  induction n as [|n IH]; intros height acc s Hacc; simpl.
  - intros [= <-]. rewrite Z.add_0_r. f_equal. symmetry.
    now apply to_uint256_small.
  - destruct (blocks_get db height) as [r|]; [|discriminate].
    destruct (work_between proof db (S height) n) as [t|] eqn:Ht;
      [|discriminate].
    intros [= <-].
    rewrite (IH (S height) _ t); [| apply to_uint256_range | exact Ht].
    f_equal. unfold block_difficulty. rewrite Hsame.
    apply uint256_add_shift.
Qed.

End FastChainFacts.

(* ------------------------------------------------------------------ *)
(** ** get_branch_work *)

(** C3 (as amended).  [get_branch_work(maximum, from_height)] returns, in
    256-bit arithmetic, the sum of [proof(bits)] over the first [k] confirmed
    heights from [from_height]: every shorter prefix sum was still below
    [maximum], and either the range up to the tip is exhausted or the
    returned sum has reached [maximum] (it is no longer strictly below it;
    equality already stops the accumulation).  It fails only when the top
    height or a block record between [from_height] and the tip cannot be
    read. *)
Theorem get_branch_work_reaches_maximum (proof : Z -> Z)
    (db : block_database) (maximum : Z) (from_height : nat) :
  match get_branch_work proof db maximum from_height with
  | Some w =>
      exists (top k : nat) (s : Z),
        blocks_top db = Some top /\
        k <= S top - from_height /\
        work_between proof db from_height k = Some s /\
        w = to_uint256 s /\
        (forall j t, j < k -> work_between proof db from_height j = Some t ->
                     (to_uint256 t < maximum)%Z) /\
        (k = S top - from_height \/ (maximum <= w)%Z)
  | None =>
      blocks_top db = None \/
      exists top height,
        blocks_top db = Some top /\
        from_height <= height <= top /\
        blocks_get db height = None
  end.
Proof.
  unfold get_branch_work.
  destruct (blocks_top db) as [top|] eqn:Htop; [|now left].
  destruct (branch_work_loop proof db maximum (S top - from_height)
              from_height 0) as [w|] eqn:Hloop.
  - apply branch_work_loop_sound in Hloop;
      [|pose proof uint256_modulus_pos; lia].
    destruct Hloop as (k & s & Hk & Hs & Hw & Hpre & Hend).
    exists top, k, s.
    split; [reflexivity | split; [exact Hk | split; [exact Hs |]]].
    split; [exact Hw | split; [exact Hpre | exact Hend]].
  - right. apply branch_work_loop_fails in Hloop.
    destruct Hloop as (h & Hh & Hnone).
    exists top, h.
    split; [reflexivity | split; [lia | exact Hnone]].
Qed.

(** C3 (as stated) fails: with confirmed work 5 then 3 above the genesis
    block and [maximum = 5], the code stops at the running sum 5 (it equals
    [maximum]), whereas accumulating until the sum exceeds [maximum] yields 8. *)
Lemma get_branch_work_stops_at_equality :
  get_branch_work example_proof example_chain 5 1 = Some 5%Z /\
  get_branch_work_until_exceeds example_proof example_chain 5 1 = Some 8%Z /\
  ~ (forall db maximum from_height,
       get_branch_work example_proof db maximum from_height =
       get_branch_work_until_exceeds example_proof db maximum from_height).
Proof.
  assert (H5 : get_branch_work example_proof example_chain 5 1 = Some 5%Z)
    by (vm_compute; reflexivity).
  assert (H8 : get_branch_work_until_exceeds example_proof example_chain 5 1
               = Some 8%Z) by (vm_compute; reflexivity).
  split; [exact H5 | split; [exact H8 |]].
  intros Hall. specialize (Hall example_chain 5%Z 1).
  rewrite H5, H8 in Hall. discriminate.
Qed.

(** C9.  When every height from [from_height] to the tip is readable (the
    range total [work_between] is defined) and that total is strictly below
    [maximum], the newer [get_branch_work] succeeds with the same 256-bit
    total as the older [get_fork_difficulty], the per-block work functions
    of the two versions being the same function. *)
Theorem get_branch_work_refines_get_fork_difficulty
    (proof difficulty : Z -> Z) (db : block_database) (maximum : Z)
    (from_height top : nat) (total : Z) :
  (forall b, difficulty b = proof b) ->
  blocks_top db = Some top ->
  work_between proof db from_height (S top - from_height) = Some total ->
  (total < maximum)%Z ->
  get_branch_work proof db maximum from_height = Some (to_uint256 total) /\
  get_fork_difficulty difficulty db from_height = Some (to_uint256 total).
Proof.
  intros Hsame Htop Htotal Hlt.
  unfold get_branch_work, get_fork_difficulty. rewrite Htop.
  assert (H0 : (0 <= 0 < uint256_modulus)%Z)
    by (pose proof uint256_modulus_pos; lia).
  split.
  - rewrite (branch_work_loop_total proof db maximum _ _ 0 total H0 Htotal)
      by lia.
    reflexivity.
  - rewrite (fork_difficulty_loop_total proof difficulty db _ _ 0 total
               Hsame H0 Htotal).
    reflexivity.
Qed.

Lemma get_branch_work_refines_get_fork_difficulty_witness :
  get_branch_work example_proof example_chain 9 1 = Some (to_uint256 8) /\
  get_fork_difficulty example_proof example_chain 1 = Some (to_uint256 8).
Proof.
  apply (get_branch_work_refines_get_fork_difficulty
           example_proof example_proof example_chain 9 1 2 8).
  - intros b. reflexivity.
  - reflexivity.
  - reflexivity.
  - lia.
Defined.

(* ------------------------------------------------------------------ *)
(** ** reorganize *)

Lemma blocks_find_bound (db : block_database) (h : hash_digest)
    (start height : nat) (b : block) :
  blocks_find db h start = Some (height, b) ->
  start <= height < start + length db /\
  db !! (height - start) = Some (Some b) /\
  hash b = h.
Proof.
  revert start. induction db as [|slot db IH]; intros start; simpl.
  - discriminate.
  - destruct slot as [c|].
    + destruct (decide (hash c = h)) as [Heq|Hne].
      * intros [= <- <-]. rewrite Nat.sub_diag. simpl.
        repeat split; [lia | lia | exact Heq].
      * intros Hfind. apply IH in Hfind. destruct Hfind as (Hb & Hl & Hh).
        replace (height - start) with (S (height - S start)) by lia.
        simpl. repeat split; [lia | lia | exact Hl | exact Hh].
    + intros Hfind. apply IH in Hfind. destruct Hfind as (Hb & Hl & Hh).
      replace (height - start) with (S (height - S start)) by lia.
      simpl. repeat split; [lia | lia | exact Hl | exact Hh].
Qed.

Lemma push_all_appends (bs : list block) (db db' : block_database)
    (height : nat) :
  push_all db bs height = Some db' ->
  db' = db ++ (Some <$> bs) /\ (bs <> [] -> length db = height).
Proof.
  revert db height. induction bs as [|b bs IH]; intros db height; simpl.
  - intros [= <-]. rewrite app_nil_r. split; [reflexivity | congruence].
  - unfold push. destruct (decide (length db = height)) as [Hlen|]; [|discriminate].
    intros Hpush. apply IH in Hpush. destruct Hpush as [-> _].
    rewrite <- app_assoc. split; [reflexivity | intros _; exact Hlen].
Qed.

Lemma pop_above_length (db popped : block_database) (h : hash_digest)
    (outgoing : list block) :
  pop_above db h = Some (popped, outgoing) ->
  exists height b,
    blocks_get_hash db h = Some (height, b) /\
    popped = take (S height) db /\
    length popped = S height /\
    outgoing = rev (omap id (drop (S height) db)).
Proof.
  unfold pop_above.
  destruct (blocks_get_hash db h) as [[height b]|] eqn:Hfind; [|discriminate].
  intros [= <- <-]. exists height, b.
  apply blocks_find_bound in Hfind. destruct Hfind as (Hb & _ & _).
  repeat split. rewrite length_take. lia.
Qed.

(** What a successful [database_reorganize] leaves behind. *)
Lemma database_reorganize_success (db db' : block_database)
    (fork_point : checkpoint) (incoming outgoing : list block) :
  incoming <> [] ->
  database_reorganize db fork_point incoming = (success, db', outgoing) ->
  db' = take (S (checkpoint_height fork_point)) db ++ (Some <$> incoming) /\
  length (take (S (checkpoint_height fork_point)) db)
    = S (checkpoint_height fork_point) /\
  get_height db (checkpoint_hash fork_point)
    = Some (checkpoint_height fork_point) /\
  outgoing = rev (omap id (drop (S (checkpoint_height fork_point)) db)).
Proof.
  intros Hne. unfold database_reorganize.
  destruct (pop_above db (checkpoint_hash fork_point)) as [[popped out]|] eqn:Hpop;
    [|discriminate].
  destruct (push_all popped incoming (S (checkpoint_height fork_point)))
    as [pushed|] eqn:Hpush; [|discriminate].
  intros [= <- <-].
  apply pop_above_length in Hpop.
  destruct Hpop as (height & b & Hfind & -> & Hlen & ->).
  apply push_all_appends in Hpush. destruct Hpush as [-> Hheight].
  specialize (Hheight Hne). rewrite Hlen in Hheight.
  injection Hheight as ->.
  unfold get_height. rewrite Hfind.
  repeat split. exact Hlen.
Qed.

(** C7.  [reorganize] with an empty incoming list hands
    [operation_failed] to the handler and leaves the organizer's state (the
    store included) as it was, the journalled call apart.  A successful
    reorganization therefore has at least one incoming block; the incoming
    blocks are committed in order from [fork_point.height + 1], the new tip
    height is [fork_point.height + |incoming|], and the outgoing list holds
    the blocks previously committed above the fork point, top first. *)
Theorem reorganize_commits_incoming
    (populate : option chain_state -> option chain_state)
    (fork_point : checkpoint) (incoming : list block) (s : block_organizer) :
  match reorganize populate fork_point incoming s with
  | None => False
  | Some ((ec, outgoing), s') =>
      (incoming = [] ->
         ec = operation_failed /\
         s' = with_journal (journal s ++ [call_reorganize fork_point []]) s) /\
      (ec = success ->
         1 <= length incoming /\
         blocks_top (database_ s')
           = Some (checkpoint_height fork_point + length incoming) /\
         (forall i b, incoming !! i = Some b ->
            blocks_get (database_ s') (checkpoint_height fork_point + 1 + i)
              = Some b) /\
         (forall h, h <= checkpoint_height fork_point ->
            blocks_get (database_ s') h = blocks_get (database_ s) h) /\
         outgoing
           = rev (omap id (drop (S (checkpoint_height fork_point)) (database_ s))))
  end.
Proof.
  unfold reorganize, bind, record_call, modify, get_state, ret.
  destruct (last incoming) as [top|] eqn:Hlast.
  - assert (Hne : incoming <> []) by (intros ->; discriminate).
    cbn [database_ with_journal].
    destruct (database_reorganize (database_ s) fork_point incoming)
      as [[ec db] outgoing] eqn:Hreorg.
    assert (Hmain : ec = success ->
      1 <= length incoming /\
      blocks_top db = Some (checkpoint_height fork_point + length incoming) /\
      (forall i b, incoming !! i = Some b ->
         blocks_get db (checkpoint_height fork_point + 1 + i) = Some b) /\
      (forall h, h <= checkpoint_height fork_point ->
         blocks_get db h = blocks_get (database_ s) h) /\
      outgoing
        = rev (omap id (drop (S (checkpoint_height fork_point)) (database_ s)))).
    { intros ->.
      apply database_reorganize_success in Hreorg; [|exact Hne].
      destruct Hreorg as (-> & Hlen & _ & ->).
      split; [destruct incoming; [congruence | simpl; lia]|].
      split.
      { unfold blocks_top. rewrite length_app, Hlen, length_fmap.
        destruct incoming; [congruence|]. simpl. f_equal; lia. }
      split.
      { intros i b Hi. unfold blocks_get.
        rewrite lookup_app_r by lia.
        rewrite Hlen.
        replace (checkpoint_height fork_point + 1 + i
                 - S (checkpoint_height fork_point)) with i by lia.
        rewrite list_lookup_fmap, Hi. reflexivity. }
      split; [|reflexivity].
      intros h Hh. unfold blocks_get.
      rewrite lookup_app_l by lia.
      rewrite lookup_take_lt by lia. reflexivity. }
    destruct (code_is_error ec) eqn:Herr; cbn.
    + split; [intros ->; congruence|].
      intros ->. discriminate.
    + split; [intros ->; congruence|]. exact Hmain.
  - assert (incoming = []) as ->.
    { destruct incoming as [|b bs]; [reflexivity|].
      exfalso. revert Hlast. clear.
      revert b. induction bs as [|c bs IH]; intros b; [discriminate|].
      apply IH. }
    split; [intros _; split; reflexivity | discriminate].
Qed.

(* ------------------------------------------------------------------ *)
(** ** Block pool *)

Lemma pool_add_contains (b : block) (pool : block_pool) :
  pool_contains (pool_add b pool) (hash b) = true.
Proof.
  unfold pool_contains, pool_add.
  destruct (pool_entries pool !! hash b) as [e|] eqn:He; simpl.
  - now rewrite He.
  - now rewrite lookup_insert_eq.
Qed.

Lemma pool_add_keeps (b : block) (pool : block_pool) (h : hash_digest) :
  pool_contains pool h = true -> pool_contains (pool_add b pool) h = true.
Proof.
  unfold pool_contains, pool_add. intros Hh.
  destruct (pool_entries pool !! hash b) as [e|] eqn:He; simpl; [exact Hh|].
  destruct (decide (hash b = h)) as [<-|Hne].
  - now rewrite lookup_insert_eq.
  - now rewrite lookup_insert_ne.
Qed.

Lemma pool_add_other (b : block) (pool : block_pool) (h : hash_digest) :
  hash b <> h ->
  pool_contains (pool_add b pool) h = pool_contains pool h.
Proof.
  unfold pool_contains, pool_add. intros Hne.
  destruct (pool_entries pool !! hash b) as [e|] eqn:He; simpl; [reflexivity|].
  now rewrite lookup_insert_ne.
Qed.

Lemma pool_add_list_keeps (bs : list block) (pool : block_pool)
    (h : hash_digest) :
  pool_contains pool h = true ->
  pool_contains (pool_add_list bs pool) h = true.
Proof.
  revert pool. unfold pool_add_list.
  induction bs as [|b bs IH]; intros pool Hh; simpl; [exact Hh|].
  apply IH. now apply pool_add_keeps.
Qed.

Lemma pool_add_list_contains (bs : list block) (pool : block_pool) (b : block) :
  In b bs -> pool_contains (pool_add_list bs pool) (hash b) = true.
Proof.
  revert pool. unfold pool_add_list.
  induction bs as [|c bs IH]; intros pool Hin; simpl; [destruct Hin|].
  destruct Hin as [->|Hin].
  - apply (pool_add_list_keeps bs). apply pool_add_contains.
  - now apply IH.
Qed.

Lemma pool_add_list_other (bs : list block) (pool : block_pool)
    (h : hash_digest) :
  (forall b, In b bs -> hash b <> h) ->
  pool_contains (pool_add_list bs pool) h = pool_contains pool h.
Proof.
  revert pool. unfold pool_add_list.
  induction bs as [|c bs IH]; intros pool Hall; simpl; [reflexivity|].
  rewrite IH by (intros b Hb; apply Hall; now right).
  apply pool_add_other. apply Hall. now left.
Qed.

Lemma pool_remove_gone (bs : list block) (pool : block_pool) (b : block) :
  In b bs -> pool_contains (pool_remove bs pool) (hash b) = false.
Proof.
  unfold pool_contains, pool_remove. simpl.
  generalize (pool_entries pool) as m.
  induction bs as [|c bs IH]; intros m Hin; simpl; [destruct Hin|].
  destruct Hin as [->|Hin]; [|now apply IH].
  assert (Hgone : forall (l : list block) (m' : gmap N pool_entry),
             m' !! hash b = None ->
             fold_left (fun m0 b0 => delete (hash b0) m0) l m' !! hash b = None).
  { clear. induction l as [|d l IHl]; intros m' Hm; simpl; [exact Hm|].
    apply IHl. destruct (decide (hash d = hash b)) as [->|Hne].
    - apply lookup_delete_eq.
    - now rewrite lookup_delete_ne. }
  rewrite Hgone; [reflexivity | apply lookup_delete_eq].
Qed.

Lemma pool_prune_absent (top_height : nat) (pool : block_pool)
    (h : hash_digest) :
  pool_contains pool h = false ->
  pool_contains (pool_prune top_height pool) h = false.
Proof.
  unfold pool_contains, pool_prune. simpl. intros Hh.
  destruct (pool_entries pool !! h) as [e|] eqn:He; [discriminate|].
  rewrite map_lookup_filter, He. reflexivity.
Qed.

(* ------------------------------------------------------------------ *)
(** ** Journal bookkeeping *)

Lemma reorganize_calls_app (l l' : list call) :
  reorganize_calls (l ++ l') = reorganize_calls l + reorganize_calls l'.
Proof. unfold reorganize_calls. now rewrite List.filter_app, length_app. Qed.

Lemma reorganize_calls_deliveries (ec : code) (height : nat)
    (incoming outgoing : list block) (handlers : list nat) :
  reorganize_calls (deliveries ec height incoming outgoing handlers) = 0.
Proof.
  unfold reorganize_calls, deliveries.
  induction handlers as [|h hs IH]; simpl; [reflexivity | exact IH].
Qed.

(* ------------------------------------------------------------------ *)
(** ** The organizer: connect, work comparison and reorganization *)

Section OrganizerFacts.

Variable proof : Z -> Z.
Variable check : block -> code.
Variable accept : block_database -> branch -> code.
Variable connect : block_database -> branch -> code.
Variable get_path : block_pool -> block -> branch.
Variable populate : option chain_state -> option chain_state.

Lemma handle_connect_stopped (ec : code) (br : branch) (s : block_organizer) :
  stopped_ s = true ->
  handle_connect proof populate ec br s = Some (service_stopped, s).
Proof.
  intros Hs. unfold handle_connect, bind, get_state, ret. now rewrite Hs.
Qed.

Lemma handle_accept_stopped (sched : schedule) (ec : code) (br : branch)
    (s : block_organizer) :
  stopped_ s = true ->
  handle_accept proof connect populate sched ec br s
    = Some (service_stopped, s).
Proof.
  intros Hs. unfold handle_accept, bind, get_state, ret. now rewrite Hs.
Qed.

Lemma organize_stopped (sched : schedule) (blk : block) (s : block_organizer) :
  stopped_ s = true ->
  organize proof check accept connect get_path populate sched blk s
    = Some (service_stopped, s).
Proof.
  intros Hs. unfold organize, bind, get_state, ret. now rewrite Hs.
Qed.

(** The work comparison of [handle_connect] when the branch does not have
    more work than the threshold. *)
Lemma handle_connect_insufficient_work (br : branch) (top : block)
    (threshold : Z) (s : block_organizer) :
  stopped_ s = false ->
  branch_top br = Some top ->
  get_branch_work proof (database_ s) (branch_work proof br)
    (branch_height br + 1) = Some threshold ->
  (branch_work proof br <= threshold)%Z ->
  handle_connect proof populate success br s
  = Some (insufficient_work,
          with_block_pool
            (pool_add (set_validation (branch_top_height br) top) (block_pool_ s))
            (with_journal
               (journal s ++
                  [call_pool_add (set_validation (branch_top_height br) top)])
               s)).
Proof.
  intros Hs Ht Hg Hle.
  unfold handle_connect, bind, get_state, ret. rewrite Hs. cbn [code_is_error].
  rewrite Ht, Hg.
  apply Z.leb_le in Hle. rewrite Hle.
  unfold do_pool_add, bind, record_call, modify. reflexivity.
Qed.

(** An undisturbed [organize] whose checks all pass continues in
    [handle_connect]. *)
Lemma organize_reaches_connect (blk : block) (br : branch)
    (s : block_organizer) :
  stopped_ s = false ->
  check blk = success ->
  branch_empty (get_path (block_pool_ s) blk) = false ->
  get_block_exists (database_ s) (hash blk) = false ->
  set_branch_height (database_ s) (get_path (block_pool_ s) blk) = Some br ->
  accept (database_ s) br = success ->
  connect (database_ s) br = success ->
  organize proof check accept connect get_path populate undisturbed blk s
  = handle_connect proof populate success br
      (with_journal
         (journal s ++ [call_check blk; call_accept br; call_connect br]) s).
Proof.
  intros Hs Hc He Hx Hh Ha Hn.
  unfold organize, bind, get_state, ret. rewrite Hs.
  unfold record_call, modify. rewrite Hc. cbn [code_is_error].
  rewrite He, Hx. cbn [orb]. rewrite Hh.
  unfold run_phase, bind, record_call, modify, ret. cbn [stop_during_accept undisturbed].
  unfold handle_accept, bind, get_state, ret, run_phase, bind, record_call, modify, ret.
  cbn [stopped_ with_journal database_ journal stop_during_connect undisturbed].
  rewrite Hs, Ha. cbn [code_is_error]. rewrite Hn.
  destruct s as [st db ps pool vs sub jr]. cbn.
  rewrite <- !app_assoc. reflexivity.
Qed.

(** C1.  In an undisturbed [organize] that reaches the work comparison
    (running organizer, all three validator phases pass, the branch is
    rooted in the confirmed chain, and [get_branch_work] returns
    [threshold]): when the branch work is less than or equal to the
    threshold, [organize] returns [insufficient_work], the pool gains
    exactly the (annotated) top block of the branch, the store is
    unchanged and no [reorganize] is journalled; consequently a
    [reorganize] call implies that the branch work is strictly greater than
    the threshold. *)
Theorem organize_insufficient_work (blk : block) (br : branch) (top : block)
    (threshold : Z) (s : block_organizer) :
  stopped_ s = false ->
  check blk = success ->
  branch_empty (get_path (block_pool_ s) blk) = false ->
  get_block_exists (database_ s) (hash blk) = false ->
  set_branch_height (database_ s) (get_path (block_pool_ s) blk) = Some br ->
  accept (database_ s) br = success ->
  connect (database_ s) br = success ->
  branch_top br = Some top ->
  get_branch_work proof (database_ s) (branch_work proof br)
    (branch_height br + 1) = Some threshold ->
  ((branch_work proof br <= threshold)%Z ->
   exists s',
     organize proof check accept connect get_path populate undisturbed blk s
       = Some (insufficient_work, s') /\
     block_pool_ s'
       = pool_add (set_validation (branch_top_height br) top) (block_pool_ s) /\
     database_ s' = database_ s /\
     journal s'
       = journal s ++
           [call_check blk; call_accept br; call_connect br;
            call_pool_add (set_validation (branch_top_height br) top)] /\
     reorganize_calls (journal s') = reorganize_calls (journal s)) /\
  (forall r s',
     organize proof check accept connect get_path populate undisturbed blk s
       = Some (r, s') ->
     reorganize_calls (journal s') <> reorganize_calls (journal s) ->
     (threshold < branch_work proof br)%Z).
Proof.
  intros Hs Hc He Hx Hh Ha Hn Ht Hg.
  assert (Hrun : (branch_work proof br <= threshold)%Z ->
    exists s',
     organize proof check accept connect get_path populate undisturbed blk s
       = Some (insufficient_work, s') /\
     block_pool_ s'
       = pool_add (set_validation (branch_top_height br) top) (block_pool_ s) /\
     database_ s' = database_ s /\
     journal s'
       = journal s ++
           [call_check blk; call_accept br; call_connect br;
            call_pool_add (set_validation (branch_top_height br) top)] /\
     reorganize_calls (journal s') = reorganize_calls (journal s)).
  { intros Hle.
    rewrite (organize_reaches_connect blk br s Hs Hc He Hx Hh Ha Hn).
    rewrite (handle_connect_insufficient_work br top threshold);
      [| exact Hs | exact Ht | exact Hg | exact Hle].
    eexists. split; [reflexivity|].
    destruct s as [st db ps pool vs sub jr].
    cbn [block_pool_ database_ journal with_block_pool with_journal].
    split; [reflexivity | split; [reflexivity|]].
    assert (Hj : (jr ++ [call_check blk; call_accept br; call_connect br]) ++
                 [call_pool_add (set_validation (branch_top_height br) top)]
                 = jr ++ [call_check blk; call_accept br; call_connect br;
                          call_pool_add (set_validation (branch_top_height br) top)])
      by (rewrite <- app_assoc; reflexivity).
    rewrite Hj. split; [reflexivity|].
    rewrite reorganize_calls_app. cbn. lia. }
  split; [exact Hrun|].
  intros r s' Horg Hcalls.
  destruct (Z.le_gt_cases (branch_work proof br) threshold) as [Hle|Hgt];
    [|lia].
  destruct (Hrun Hle) as (s'' & Horg' & _ & _ & _ & Hsame).
  rewrite Horg in Horg'. injection Horg' as _ ->. contradiction.
Qed.

(** C2.  [handle_reorganized] on a successfully committed reorganization:
    the branch blocks are removed from the pool, the pool is pruned at the
    new top height, the outgoing blocks are added to the pool, every
    subscriber is notified with [(branch_height, incoming, outgoing)], in
    this order, and [success] is handed to the caller.  Afterwards every
    outgoing block is pooled and a committed branch block is not (unless it
    is also an outgoing block). *)
Theorem handle_reorganized_success_sequence (br : branch)
    (outgoing : list block) (s : block_organizer) :
  exists s',
    handle_reorganized success br outgoing s = Some (success, s') /\
    journal s'
      = journal s ++
          [call_pool_remove (branch_blocks br);
           call_pool_prune (branch_top_height br);
           call_pool_add_list outgoing] ++
          deliveries success (branch_height br) (branch_blocks br) outgoing
            (subscriptions (subscriber_ s)) /\
    block_pool_ s'
      = pool_add_list outgoing
          (pool_prune (branch_top_height br)
             (pool_remove (branch_blocks br) (block_pool_ s))) /\
    database_ s' = database_ s /\
    (forall b, In b outgoing ->
       pool_contains (block_pool_ s') (hash b) = true) /\
    (forall b, In b (branch_blocks br) ->
       (forall o, In o outgoing -> hash o <> hash b) ->
       pool_contains (block_pool_ s') (hash b) = false).
Proof.
  destruct s as [st db ps pool vs sub jr].
  unfold handle_reorganized, notify_reorganize, subscriber_invoke,
    do_pool_remove, do_pool_prune, do_pool_add_list,
    bind, record_call, modify, get_state, ret.
  cbn.
  assert (Hj : forall tail : list call,
    (((jr ++ [call_pool_remove (branch_blocks br)]) ++
      [call_pool_prune (branch_top_height br)]) ++
     [call_pool_add_list outgoing]) ++ tail
    = jr ++ [call_pool_remove (branch_blocks br);
             call_pool_prune (branch_top_height br);
             call_pool_add_list outgoing] ++ tail)
    by (intros tail; rewrite <- !app_assoc; reflexivity).
  assert (Hin : forall b, In b outgoing ->
    pool_contains
      (pool_add_list outgoing
         (pool_prune (branch_top_height br)
            (pool_remove (branch_blocks br) pool))) (hash b) = true)
    by (intros b Hb; now apply pool_add_list_contains).
  assert (Hout : forall b, In b (branch_blocks br) ->
    (forall o, In o outgoing -> hash o <> hash b) ->
    pool_contains
      (pool_add_list outgoing
         (pool_prune (branch_top_height br)
            (pool_remove (branch_blocks br) pool))) (hash b) = false).
  { intros b Hb Hfresh.
    rewrite pool_add_list_other by exact Hfresh.
    apply pool_prune_absent. now apply pool_remove_gone. }
  destruct (subscriber_stopped sub); cbn; eexists;
    (split; [reflexivity|]); cbn; rewrite Hj;
    (split; [reflexivity|]); (split; [reflexivity|]);
    (split; [reflexivity|]); (split; [exact Hin | exact Hout]).
Qed.

(** *** The codes the continuation of [organize] can hand back *)

Lemma stop_total (s : block_organizer) :
  exists s0,
    stop s = Some (true, s0) /\
    stopped_ s0 = true /\
    database_ s0 = database_ s /\
    block_pool_ s0 = block_pool_ s /\
    journal s0
      = journal s ++
          deliveries service_stopped 0 [] [] (subscriptions (subscriber_ s)) /\
    subscriptions (subscriber_ s0) = [].
Proof.
  destruct s as [st db ps pool vs [sst subs] jr].
  unfold stop, subscriber_stop, subscriber_invoke,
    bind, modify, get_state, ret. cbn.
  eexists. split; [reflexivity|]. cbn. repeat split.
Qed.

Lemma run_phase_result (c : call) (ec : code) (stop_lands : bool)
    (s : block_organizer) :
  exists s1,
    run_phase c ec stop_lands s = Some (ec, s1) /\
    database_ s1 = database_ s /\
    block_pool_ s1 = block_pool_ s /\
    (stop_lands = true -> stopped_ s1 = true) /\
    (stop_lands = false -> s1 = with_journal (journal s ++ [c]) s).
Proof.
  unfold run_phase, bind, record_call, modify, ret.
  destruct stop_lands.
  - destruct (stop_total (with_journal (journal s ++ [c]) s))
      as (s0 & Hstop & Hst & Hdb & Hpool & _ & _).
    rewrite Hstop. exists s0.
    split; [reflexivity|]. split; [exact Hdb|]. split; [exact Hpool|].
    split; [intros _; exact Hst | discriminate].
  - eexists. split; [reflexivity|].
    split; [reflexivity|]. split; [reflexivity|].
    split; [discriminate | reflexivity].
Qed.

Lemma database_reorganize_codes (db : block_database) (fork_point : checkpoint)
    (incoming : list block) :
  (database_reorganize db fork_point incoming).1.1 = success \/
  (database_reorganize db fork_point incoming).1.1 = operation_failed.
Proof.
  unfold database_reorganize.
  destruct (pop_above db (checkpoint_hash fork_point)) as [[popped out]|];
    [|now right].
  destruct (push_all popped incoming (S (checkpoint_height fork_point)));
    [now left | now right].
Qed.

Lemma reorganize_codes (fork_point : checkpoint) (incoming : list block)
    (s : block_organizer) (r : code * list block) (s' : block_organizer) :
  reorganize populate fork_point incoming s = Some (r, s') ->
  r.1 = success \/ r.1 = operation_failed.
Proof.
  unfold reorganize, bind, record_call, modify, get_state, ret.
  destruct (last incoming) as [top|]; [|intros [= <- _]; now right].
  cbn [database_ with_journal].
  pose proof (database_reorganize_codes (database_ s) fork_point incoming) as Hc.
  destruct (database_reorganize (database_ s) fork_point incoming)
    as [[ec db] outgoing].
  cbn in Hc.
  destruct (code_is_error ec); cbn; intros [= <- _]; exact Hc.
Qed.

Lemma handle_reorganized_codes (ec : code) (br : branch)
    (outgoing : list block) (s : block_organizer) (r : code)
    (s' : block_organizer) :
  handle_reorganized ec br outgoing s = Some (r, s') -> r = ec.
Proof.
  unfold handle_reorganized.
  destruct (code_is_error ec) eqn:Herr.
  - unfold bind, record_call, modify, ret. intros [= <- _]. reflexivity.
  - destruct ec; try discriminate.
    unfold notify_reorganize, subscriber_invoke,
      do_pool_remove, do_pool_prune, do_pool_add_list,
      bind, record_call, modify, get_state, ret.
    cbn.
    destruct (subscriber_stopped (subscriber_ s));
      intros [= <- _]; reflexivity.
Qed.

Lemma handle_connect_codes (ec : code) (br : branch) (s : block_organizer)
    (r : code) (s' : block_organizer) :
  handle_connect proof populate ec br s = Some (r, s') ->
  r = service_stopped \/ r = ec \/ r = operation_failed \/
  r = insufficient_work \/ r = success.
Proof.
  unfold handle_connect, bind, get_state, ret.
  destruct (stopped_ s); [intros [= <- _]; now left|].
  destruct (code_is_error ec); [intros [= <- _]; right; now left|].
  destruct (branch_top br) as [top|]; [|discriminate].
  destruct (get_branch_work proof (database_ s) (branch_work proof br)
              (branch_height br + 1)) as [threshold|];
    [|intros [= <- _]; right; right; now left].
  destruct (branch_work proof br <=? threshold)%Z.
  - unfold do_pool_add, bind, record_call, modify, ret.
    intros [= <- _]. right; right; right; now left.
  - destruct (reorganize populate (branch_fork_point (annotate_top br))
                (branch_blocks (annotate_top br)) s) as [[r0 s0]|] eqn:Hre;
      [|discriminate].
    intros Hfin. apply handle_reorganized_codes in Hfin.
    apply reorganize_codes in Hre. subst r.
    destruct Hre as [-> | ->]; [right; right; right; now right |].
    right; right; now left.
Qed.

Lemma handle_accept_codes (sched : schedule) (ec : code) (br : branch)
    (s : block_organizer) (r : code) (s' : block_organizer) :
  handle_accept proof connect populate sched ec br s = Some (r, s') ->
  r = service_stopped \/ r = ec \/ r = connect (database_ s) br \/
  r = operation_failed \/ r = insufficient_work \/ r = success.
Proof.
  unfold handle_accept, bind at 1, get_state, ret.
  destruct (stopped_ s); [intros [= <- _]; now left|].
  destruct (code_is_error ec); [intros [= <- _]; right; now left|].
  unfold bind.
  destruct (run_phase_result (call_connect br) (connect (database_ s) br)
              (stop_during_connect sched) s) as (s1 & -> & _).
  intros Hfin. apply handle_connect_codes in Hfin.
  destruct Hfin as [-> | [-> | [-> | [-> | ->]]]]; auto 10.
Qed.

End OrganizerFacts.

Lemma organize_insufficient_work_witness :
  exists s',
    organize example_proof example_check example_accept example_connect
      example_get_path example_populate undisturbed block_b2 example_organizer
      = Some (insufficient_work, s') /\
    pool_contains (block_pool_ s') (hash block_b2) = true /\
    database_ s' = example_chain.
Proof.
  destruct (organize_insufficient_work example_proof example_check
              example_accept example_connect example_get_path example_populate
              block_b2 (mk_branch 2%N 1 [block_b2]) block_b2 3%Z
              example_organizer) as [Hrun _];
    try (vm_compute; reflexivity).
  destruct Hrun as (s' & Horg & Hpool & Hdb & _).
  - vm_compute. discriminate.
  - exists s'. split; [exact Horg|]. split; [|exact Hdb].
    rewrite Hpool.
    apply (pool_add_contains (set_validation 2 block_b2)).
Defined.

(* ------------------------------------------------------------------ *)
(** ** The organizer: guards of [organize] and the stop sequence *)

Section OrganizerGuards.

Variable proof : Z -> Z.
Variable check : block -> code.
Variable accept : block_database -> branch -> code.
Variable connect : block_database -> branch -> code.
Variable get_path : block_pool -> block -> branch.
Variable populate : option chain_state -> option chain_state.

Local Abbreviation organize' :=
  (organize proof check accept connect get_path populate).

(** The prefix of [organize] up to the duplicate test, on a running
    organizer whose stateless check passes. *)
Lemma organize_after_check (sched : schedule) (blk : block)
    (s : block_organizer) :
  stopped_ s = false ->
  check blk = success ->
  organize' sched blk s
  = if branch_empty (get_path (block_pool_ s) blk)
       || get_block_exists (database_ s) (hash blk)
    then Some (duplicate_block, with_journal (journal s ++ [call_check blk]) s)
    else
      match set_branch_height (database_ s) (get_path (block_pool_ s) blk) with
      | None => Some (orphan_block, with_journal (journal s ++ [call_check blk]) s)
      | Some br =>
          (ec' <- run_phase (call_accept br) (accept (database_ s) br)
                    (stop_during_accept sched) ;;
           handle_accept proof connect populate sched ec' br)
            (with_journal (journal s ++ [call_check blk]) s)
      end.
Proof.
  intros Hs Hc.
  unfold organize, bind at 1, get_state, ret. rewrite Hs.
  unfold bind at 1, record_call, modify. rewrite Hc. cbn [code_is_error].
  destruct (branch_empty (get_path (block_pool_ s) blk)
            || get_block_exists (database_ s) (hash blk)); [reflexivity|].
  destruct (set_branch_height (database_ s) (get_path (block_pool_ s) blk));
    reflexivity.
Qed.

(** C4 (as amended).  On a running organizer, for a block that passes the
    stateless check, and with validator phases that never report
    [duplicate_block] themselves: [organize] returns [duplicate_block]
    exactly when [get_path] yields an empty branch or the block's own hash
    exists in the confirmed chain; in that case only the stateless check
    has been called and nothing but the journal of calls has changed. *)
Theorem organize_duplicate_block (sched : schedule) (blk : block)
    (s : block_organizer) :
  stopped_ s = false ->
  check blk = success ->
  (forall db br, accept db br <> duplicate_block) ->
  (forall db br, connect db br <> duplicate_block) ->
  (branch_empty (get_path (block_pool_ s) blk)
     || get_block_exists (database_ s) (hash blk) = true ->
   organize' sched blk s
   = Some (duplicate_block, with_journal (journal s ++ [call_check blk]) s)) /\
  (forall s',
     organize' sched blk s = Some (duplicate_block, s') ->
     branch_empty (get_path (block_pool_ s) blk)
       || get_block_exists (database_ s) (hash blk) = true).
Proof.
  intros Hs Hc Hacc Hcon.
  rewrite (organize_after_check sched blk s Hs Hc).
  destruct (branch_empty (get_path (block_pool_ s) blk)
            || get_block_exists (database_ s) (hash blk)) eqn:Hdup.
  - split; [reflexivity | intros; reflexivity].
  - split; [discriminate|].
    intros s'.
    destruct (set_branch_height (database_ s) (get_path (block_pool_ s) blk))
      as [br|]; [|discriminate].
    unfold bind.
    destruct (run_phase_result (call_accept br) (accept (database_ s) br)
                (stop_during_accept sched)
                (with_journal (journal s ++ [call_check blk]) s))
      as (s1 & -> & Hdb & _).
    intros Hfin. apply handle_accept_codes in Hfin.
    exfalso.
    destruct Hfin as [H | [H | [H | [H | [H | H]]]]]; try discriminate.
    + symmetry in H. now apply Hacc in H.
    + symmetry in H. now apply Hcon in H.
Qed.

(** C5 (as amended).  When the fork point of the walked branch does not
    resolve to a height in the confirmed chain, [organize] never touches
    the block pool nor the store, and the code it returns is fixed by its
    guards, in their order: [service_stopped] when the organizer is
    stopped, otherwise the code of the stateless check when that is an
    error, otherwise [duplicate_block] when the branch is empty or the
    block's own hash is in the confirmed chain, and [orphan_block]
    otherwise; nothing but the stateless check is called.  So it returns
    [orphan_block] when the organizer is running, the stateless check
    passes, the branch is not empty and the block's own hash is not in the
    confirmed chain. *)
Theorem organize_orphan_block (sched : schedule) (blk : block)
    (s : block_organizer) :
  get_height (database_ s) (branch_hash (get_path (block_pool_ s) blk))
    = None ->
  (exists r s',
     organize' sched blk s = Some (r, s') /\
     block_pool_ s' = block_pool_ s /\
     database_ s' = database_ s /\
     r = (if stopped_ s then service_stopped
          else if code_is_error (check blk) then check blk
          else if branch_empty (get_path (block_pool_ s) blk)
                  || get_block_exists (database_ s) (hash blk)
               then duplicate_block
               else orphan_block) /\
     s' = (if stopped_ s then s
           else with_journal (journal s ++ [call_check blk]) s)) /\
  (stopped_ s = false ->
   check blk = success ->
   branch_empty (get_path (block_pool_ s) blk) = false ->
   get_block_exists (database_ s) (hash blk) = false ->
   organize' sched blk s
   = Some (orphan_block, with_journal (journal s ++ [call_check blk]) s)).
Proof.
  intros Hfork.
  assert (Hset : set_branch_height (database_ s) (get_path (block_pool_ s) blk)
                 = None) by (unfold set_branch_height; now rewrite Hfork).
  split.
  - destruct (stopped_ s) eqn:Hs.
    { exists service_stopped, s.
      split; [now apply organize_stopped|]. repeat split. }
    destruct (code_is_error (check blk)) eqn:Hc.
    { exists (check blk), (with_journal (journal s ++ [call_check blk]) s).
      split.
      - unfold organize, bind, get_state, record_call, modify, ret.
        now rewrite Hs, Hc.
      - repeat split. }
    assert (Hok : check blk = success)
      by (destruct (check blk); try discriminate; reflexivity).
    rewrite (organize_after_check sched blk s Hs Hok), Hset.
    destruct (branch_empty (get_path (block_pool_ s) blk)
              || get_block_exists (database_ s) (hash blk)).
    + exists duplicate_block, (with_journal (journal s ++ [call_check blk]) s).
      repeat split.
    + exists orphan_block, (with_journal (journal s ++ [call_check blk]) s).
      repeat split.
  - intros Hs Hc He Hx.
    rewrite (organize_after_check sched blk s Hs Hc), He, Hx, Hset.
    reflexivity.
Qed.

(** C6.  After [stop] (with no [start] in between): every later
    [organize] returns [service_stopped] and leaves the whole state,
    journal included, as it is (so no validator phase runs), also over any
    sequence of calls; the
    continuations [handle_accept] and [handle_connect] return
    [service_stopped] without doing anything; a [stop] that lands while an
    [organize] is suspended in [accept] or in [connect] makes its
    continuation return [service_stopped]; and [stop] itself journals
    exactly one [service_stopped] delivery per live subscription, which it
    then releases, so a repeated [stop] delivers nothing more. *)
Theorem stop_then_service_stopped (s : block_organizer) :
  match stop s with
  | None => False
  | Some (_, s0) =>
      stopped_ s0 = true /\
      (forall sched blk, organize' sched blk s0 = Some (service_stopped, s0)) /\
      (forall blks,
         organize_all proof check accept connect get_path populate blks s0
         = Some (repeat service_stopped (length blks), s0)) /\
      (forall sched ec br,
         handle_accept proof connect populate sched ec br s0
         = Some (service_stopped, s0)) /\
      (forall ec br,
         handle_connect proof populate ec br s0 = Some (service_stopped, s0)) /\
      journal s0
        = journal s ++
            deliveries service_stopped 0 [] [] (subscriptions (subscriber_ s)) /\
      subscriptions (subscriber_ s0) = [] /\
      match stop s0 with
      | None => False
      | Some (_, s1) => journal s1 = journal s0
      end
  end /\
  (forall (s1 : block_organizer) c ec sched br,
     exists s2,
       (e <- run_phase c ec true ;;
        handle_accept proof connect populate sched e br) s1
       = Some (service_stopped, s2) /\ stopped_ s2 = true) /\
  (forall (s1 : block_organizer) c ec br,
     exists s2,
       (e <- run_phase c ec true ;; handle_connect proof populate e br) s1
       = Some (service_stopped, s2) /\ stopped_ s2 = true).
Proof.
  split; [|split].
  - destruct (stop_total s) as (s0 & -> & Hst & _ & _ & Hj & Hsubs).
    split; [exact Hst|].
    assert (Horg : forall sched blk,
              organize' sched blk s0 = Some (service_stopped, s0))
      by (intros; now apply organize_stopped).
    split; [exact Horg|].
    split.
    { induction blks as [|blk blks IH]; [reflexivity|].
      cbn [organize_all length repeat]. unfold bind at 1.
      rewrite Horg. unfold bind at 1. rewrite IH. reflexivity. }
    split; [intros; now apply handle_accept_stopped|].
    split; [intros; now apply handle_connect_stopped|].
    split; [exact Hj|]. split; [exact Hsubs|].
    destruct (stop_total s0) as (s1 & -> & _ & _ & _ & Hj1 & _).
    rewrite Hj1, Hsubs. cbn. apply app_nil_r.
  - intros s1 c ec sched br. unfold bind.
    destruct (run_phase_result c ec true s1) as (s2 & -> & _ & _ & Hst & _).
    exists s2. split; [|now apply Hst].
    apply handle_accept_stopped. now apply Hst.
  - intros s1 c ec br. unfold bind.
    destruct (run_phase_result c ec true s1) as (s2 & -> & _ & _ & Hst & _).
    exists s2. split; [|now apply Hst].
    apply handle_connect_stopped. now apply Hst.
Qed.

End OrganizerGuards.

Lemma organize_duplicate_block_witness :
  organize example_proof example_check example_accept example_connect
    example_get_path example_populate undisturbed block_a1 example_organizer
  = Some (duplicate_block,
          with_journal (journal example_organizer ++ [call_check block_a1])
            example_organizer).
Proof.
  destruct (organize_duplicate_block example_proof example_check
              example_accept example_connect example_get_path
              example_populate undisturbed block_a1 example_organizer)
    as [Hdup _].
  - reflexivity.
  - reflexivity.
  - intros db br. discriminate.
  - intros db br. discriminate.
  - apply Hdup. vm_compute. reflexivity.
Defined.

(** C4 (as stated) fails: a stopped organizer answers [service_stopped]
    for a block whose hash is in the confirmed chain. *)
Lemma organize_duplicate_block_needs_running :
  get_block_exists (database_ idle_organizer) (hash block_a1) = true /\
  organize example_proof example_check example_accept example_connect
    example_get_path example_populate undisturbed block_a1 idle_organizer
  = Some (service_stopped, idle_organizer) /\
  ~ (forall sched blk s,
       (exists s',
          organize example_proof example_check example_accept example_connect
            example_get_path example_populate sched blk s
          = Some (duplicate_block, s')) <->
       branch_empty (example_get_path (block_pool_ s) blk)
         || get_block_exists (database_ s) (hash blk) = true).
Proof.
  assert (Hex : get_block_exists (database_ idle_organizer) (hash block_a1)
                = true) by (vm_compute; reflexivity).
  assert (Hrun : organize example_proof example_check example_accept
                   example_connect example_get_path example_populate
                   undisturbed block_a1 idle_organizer
                 = Some (service_stopped, idle_organizer))
    by (apply organize_stopped; reflexivity).
  split; [exact Hex | split; [exact Hrun |]].
  intros Hall.
  destruct (proj2 (Hall undisturbed block_a1 idle_organizer)) as [s' Hs'].
  - rewrite Hex. apply orb_true_r.
  - rewrite Hrun in Hs'. discriminate.
Qed.

Lemma organize_orphan_block_witness :
  organize example_proof example_check example_accept example_connect
    example_get_path example_populate undisturbed block_orphan example_organizer
  = Some (orphan_block,
          with_journal (journal example_organizer ++ [call_check block_orphan])
            example_organizer).
Proof.
  apply (proj2 (organize_orphan_block example_proof example_check
                  example_accept example_connect example_get_path
                  example_populate undisturbed block_orphan example_organizer
                  eq_refl)); vm_compute; reflexivity.
Defined.

(** C5 (as stated) fails: the fork point of the walked branch does not
    resolve, yet a stopped organizer answers [service_stopped], and a
    running one answers [duplicate_block] for the genesis block (its own
    hash is in the confirmed chain, its parent [null_hash] is not). *)
Lemma organize_orphan_block_guarded :
  get_height (database_ idle_organizer)
    (branch_hash (example_get_path (block_pool_ idle_organizer) block_orphan))
    = None /\
  organize example_proof example_check example_accept example_connect
    example_get_path example_populate undisturbed block_orphan idle_organizer
  = Some (service_stopped, idle_organizer) /\
  get_height (database_ example_organizer)
    (branch_hash (example_get_path (block_pool_ example_organizer) genesis))
    = None /\
  organize example_proof example_check example_accept example_connect
    example_get_path example_populate undisturbed genesis example_organizer
  = Some (duplicate_block,
          with_journal (journal example_organizer ++ [call_check genesis])
            example_organizer) /\
  ~ (forall sched blk s,
       get_height (database_ s)
         (branch_hash (example_get_path (block_pool_ s) blk)) = None ->
       exists s',
         organize example_proof example_check example_accept example_connect
           example_get_path example_populate sched blk s
         = Some (orphan_block, s')).
Proof.
  assert (H1 : get_height (database_ idle_organizer)
                 (branch_hash
                    (example_get_path (block_pool_ idle_organizer) block_orphan))
               = None) by (vm_compute; reflexivity).
  assert (H2 : organize example_proof example_check example_accept
                 example_connect example_get_path example_populate
                 undisturbed block_orphan idle_organizer
               = Some (service_stopped, idle_organizer))
    by (apply organize_stopped; reflexivity).
  assert (H3 : get_height (database_ example_organizer)
                 (branch_hash
                    (example_get_path (block_pool_ example_organizer) genesis))
               = None) by (vm_compute; reflexivity).
  assert (H4 : organize example_proof example_check example_accept
                 example_connect example_get_path example_populate
                 undisturbed genesis example_organizer
               = Some (duplicate_block,
                       with_journal
                         (journal example_organizer ++ [call_check genesis])
                         example_organizer)).
  { rewrite organize_after_check by reflexivity. reflexivity. }
  repeat (split; [assumption|]).
  intros Hall.
  destruct (Hall undisturbed genesis example_organizer H3) as [s' Hs'].
  rewrite H4 in Hs'. discriminate.
Qed.

(** The side branch [block_b2; block_b3] of the examples, submitted to the
    started organizer: the first block is pooled with [insufficient_work];
    the second makes the branch heavier than the confirmed block above the
    fork point, which is swapped out and pooled. *)
Example organize_reorganization_scenario :
  match organize_all example_proof example_check example_accept
          example_connect example_get_path example_populate
          [block_b2; block_b3] example_organizer with
  | Some (codes, s') =>
      codes = [insufficient_work; success] /\
      database_ s'
        = [Some genesis; Some block_a1; Some (set_validation 2 block_b2);
           Some (set_validation 3 block_b3)] /\
      pool_contains (block_pool_ s') (hash block_a2) = true /\
      pool_contains (block_pool_ s') (hash block_b2) = false /\
      pool_contains (block_pool_ s') (hash block_b3) = false /\
      reorganize_calls (journal s') = 1
  | None => False
  end.
Proof. vm_compute. repeat split. Qed.

(* ------------------------------------------------------------------ *)
(** ** Safe chain reads *)

Lemma wait_for_grant_granted (attempts : list read_attempt) (a : read_attempt) :
  (wait_for_grant attempts).2 = Some a ->
  In a attempts /\ is_write_locked a = false /\ is_read_valid a = true.
Proof.
  induction attempts as [|b rest IH]; simpl; [discriminate|].
  destruct (granted b) eqn:Hb; simpl.
  - intros [= <-]. split; [now left|].
    unfold granted in Hb. apply andb_true_iff in Hb. destruct Hb as [Hl Hv].
    split; [now apply negb_true_iff in Hl | exact Hv].
  - intros Ha. destruct (IH Ha) as (Hin & Hl & Hv).
    split; [now right | split; assumption].
Qed.


Lemma handled_retries {R : Type} (failed : list read_attempt) :
  handled (@retries R failed) = [].
Proof.
  unfold handled, retries. induction failed as [|a failed IH]; simpl; auto.
Qed.

Lemma handled_app {R : Type} (l l' : list (read_event R)) :
  handled (l ++ l') = handled l ++ handled l'.
Proof. unfold handled. apply omap_app. Qed.

(** The loop of [read_serial] over a [do_fetch] closure, in closed form. *)
Lemma read_serial_closed_form {S R : Type} (body : S -> read_attempt -> S)
    (args : S -> read_attempt -> R) (captured : S)
    (attempts : list read_attempt) :
  read_serial (do_fetch body args) captured attempts
  = match (wait_for_grant attempts).2 with
    | Some a =>
        (true,
         retries (wait_for_grant attempts).1 ++
           [ev_begin_read (begin_read a);
            ev_handler
              (args (replay body captured ((wait_for_grant attempts).1 ++ [a]))
                 a)],
         replay body captured ((wait_for_grant attempts).1 ++ [a]))
    | None =>
        (false, retries (wait_for_grant attempts).1,
         replay body captured (wait_for_grant attempts).1)
    end.
Proof.
  revert captured. induction attempts as [|a rest IH]; intros captured.
  - reflexivity.
  - cbn [read_serial wait_for_grant]. unfold granted.
    destruct (is_write_locked a) eqn:Hl; cbn [negb andb].
    + rewrite IH. cbn [fst snd].
      destruct (wait_for_grant rest).2 as [g|];
        cbn [retries flat_map app replay fst snd]; rewrite Hl; reflexivity.
    + assert (Hdo : do_fetch body args captured a
                    = (finish_read a (args (body captured a) a),
                       body captured a)) by reflexivity.
      rewrite Hdo. unfold finish_read.
      destruct (is_read_valid a) eqn:Hv; cbn [negb fst snd].
      * cbn [retries flat_map app replay]. rewrite Hl. reflexivity.
      * rewrite IH. cbn [fst snd].
        destruct (wait_for_grant rest).2 as [g|];
          cbn [retries flat_map app replay fst snd]; rewrite Hl; reflexivity.
Qed.



(** The [fetch_*] queries capture nothing they edit: the handler receives
    the query over the store of the first granted attempt. *)
Lemma fetch_delivers_granted_read {R : Type} (stopped_args : R)
    (query : block_database -> R) (attempts : list read_attempt) :
  handled (fetch false stopped_args query attempts).2
  = match (wait_for_grant attempts).2 with
    | Some a => [query (store_seen a)]
    | None => []
    end.
Proof.
  unfold fetch. rewrite read_serial_closed_form.
  destruct (wait_for_grant attempts).2 as [a|]; cbn [fst snd].
  - rewrite handled_app, handled_retries. reflexivity.
  - apply handled_retries.
Qed.

(* ------------------------------------------------------------------ *)
(** ** fetch_locator_block_hashes, older against newer *)

Lemma build_hashes_older_at_most_one (db : block_database)
    (remaining index : nat) :
  length (build_hashes_older db remaining index) <= 1.
Proof.
  revert index. induction remaining as [|n IH]; intros index; simpl; [lia|].
  destruct (blocks_get db index); [simpl; lia | apply IH].
Qed.

Lemma reserve_grants (max_reserve : N) (count : nat) :
  (N.of_nat count <= max_reserve)%N -> reserve max_reserve count = inr tt.
Proof.
  intros H. unfold reserve. now rewrite (proj2 (N.leb_le _ _) H).
Qed.

Lemma locator_block_hashes_at_500 (max_reserve : N) (threshold : hash_digest) :
  (501 <= max_reserve)%N ->
  locator_block_hashes_older max_reserve empty_locator threshold 500
    example_chain4
  = inr (build_hashes_older example_chain4
           (501 - (locator_threshold example_chain4 threshold 0 + 1))
           (locator_threshold example_chain4 threshold 0 + 1)) /\
  locator_block_hashes_newer max_reserve empty_locator threshold 500
    example_chain4
  = inr (build_hashes_newer example_chain4 500 1).
Proof.
  intros H. unfold locator_block_hashes_older, locator_block_hashes_newer.
  change (locator_start example_chain4 (start_hashes empty_locator)) with 0.
  change (safe_add 0 500) with (inr 500 : exception + nat).
  change (safe_add 0 1) with (inr 1 : exception + nat).
  cbv beta iota.
  change (safe_add 500 1) with (inr 501 : exception + nat).
  change (safe_add 1 500) with (inr 501 : exception + nat).
  cbv beta iota zeta.
  change (locator_stop example_chain4 empty_locator 501) with 501.
  change (floor_subtract 501 1) with 500.
  rewrite !reserve_grants by (cbn; lia).
  split; reflexivity.
Qed.

(** C10 fails on the code.  Over the four-block chain, with no start hash
    on chain, no stop hash and limit 500 (no sum overflows, and the vector
    can hold the 501 entries reserved): the older version hands the handler
    one hash (its loop leaves after the first block it finds), the newer one
    the three hashes above the genesis block.  With the threshold set to
    [block_a2] the older version starts above it, the newer version ignores
    it. *)
Lemma fetch_locator_block_hashes_diverge (max_reserve : N) :
  (501 <= max_reserve)%N ->
  delivered (fetch_locator_block_hashes_older max_reserve false empty_locator
               null_hash 500 [attempt_chain4])
  = inr [(success, Some [(type_block, 2%N)])] /\
  delivered (fetch_locator_block_hashes_newer max_reserve false empty_locator
               null_hash 500 [attempt_chain4])
  = inr [(success,
          Some [(type_block, 2%N); (type_block, 3%N); (type_block, 4%N)])] /\
  delivered (fetch_locator_block_hashes_older max_reserve false empty_locator
               3%N 500 [attempt_chain4])
  = inr [(success, Some [(type_block, 4%N)])] /\
  delivered (fetch_locator_block_hashes_newer max_reserve false empty_locator
               3%N 500 [attempt_chain4])
  = inr [(success,
          Some [(type_block, 2%N); (type_block, 3%N); (type_block, 4%N)])].
Proof.
  intros H.
  destruct (locator_block_hashes_at_500 max_reserve null_hash H) as [Ho Hn].
  destruct (locator_block_hashes_at_500 max_reserve 3%N H) as [Ho3 Hn3].
  unfold fetch_locator_block_hashes_older, fetch_locator_block_hashes_newer,
    fetch_or_throw, delivered.
  cbn [read_serial].
  change (store_seen attempt_chain4) with example_chain4.
  change (is_write_locked attempt_chain4) with false.
  cbv iota.
  rewrite Ho, Hn, Ho3, Hn3.
  repeat split; vm_compute; reflexivity.
Qed.

Lemma fetch_locator_block_hashes_diverge_witness :
  delivered (fetch_locator_block_hashes_older (2 ^ 32) false empty_locator
               null_hash 500 [attempt_chain4])
  = inr [(success, Some [(type_block, 2%N)])] /\
  delivered (fetch_locator_block_hashes_newer (2 ^ 32) false empty_locator
               null_hash 500 [attempt_chain4])
  = inr [(success,
          Some [(type_block, 2%N); (type_block, 3%N); (type_block, 4%N)])] /\
  delivered (fetch_locator_block_hashes_older (2 ^ 32) false empty_locator
               3%N 500 [attempt_chain4])
  = inr [(success, Some [(type_block, 4%N)])] /\
  delivered (fetch_locator_block_hashes_newer (2 ^ 32) false empty_locator
               3%N 500 [attempt_chain4])
  = inr [(success,
          Some [(type_block, 2%N); (type_block, 3%N); (type_block, 4%N)])].
Proof.
  apply (fetch_locator_block_hashes_diverge (2 ^ 32)). vm_compute.
  discriminate.
Defined.

(* ------------------------------------------------------------------ *)
(** ** The threshold against the whole confirmed work above the fork *)

Section ThresholdFacts.

Variable proof : Z -> Z.

Lemma work_between_prefix_le (db : block_database) (k n height : nat)
    (s t : Z) :
  k <= n ->
  work_between proof db height k = Some s ->
  work_between proof db height n = Some t ->
  (s <= t)%Z.
Proof.
  revert n height s t. induction k as [|k IH]; intros n height s t Hk; simpl.
  - intros [= <-] Ht. now apply work_between_nonneg in Ht.
  - destruct n as [|n]; [lia|]. simpl.
    destruct (blocks_get db height) as [r|]; [|discriminate].
    destruct (work_between proof db (S height) k) as [s'|] eqn:Hs;
      [|discriminate].
    destruct (work_between proof db (S height) n) as [t'|] eqn:Ht;
      [|discriminate].
    intros [= <-] [= <-].
    pose proof (IH n (S height) s' t' ltac:(lia) Hs Ht). lia.
Qed.

(** [get_branch_work] cannot fail over a readable range. *)
Lemma get_branch_work_readable (db : block_database) (maximum : Z)
    (from_height top : nat) (total : Z) :
  blocks_top db = Some top ->
  work_between proof db from_height (S top - from_height) = Some total ->
  exists threshold,
    get_branch_work proof db maximum from_height = Some threshold.
Proof.
  intros Htop Htotal. unfold get_branch_work. rewrite Htop.
  destruct (branch_work_loop proof db maximum (S top - from_height)
              from_height 0) as [w|] eqn:Hloop; [eauto|].
  apply branch_work_loop_fails in Hloop. destruct Hloop as (h & Hh & Hnone).
  assert (Hsome : is_Some (work_between proof db from_height
                             (S top - from_height))) by (rewrite Htotal; eauto).
  apply (proj1 (work_between_readable proof db _ _)) with (h := h) in Hsome;
    [|exact Hh].
  rewrite Hnone in Hsome. destruct Hsome; discriminate.
Qed.

(** X1.  Stopping early does not change the outcome of the comparison: as long
    as the total confirmed work fits 256 bits, [maximum] is at most the
    returned threshold exactly when it is at most that total. *)
Lemma get_branch_work_compares_as_total (db : block_database) (maximum : Z)
    (from_height top : nat) (total threshold : Z) :
  blocks_top db = Some top ->
  work_between proof db from_height (S top - from_height) = Some total ->
  (total < uint256_modulus)%Z ->
  get_branch_work proof db maximum from_height = Some threshold ->
  ((maximum <= threshold)%Z <-> (maximum <= total)%Z).
Proof.
  intros Htop Htotal Hfit. unfold get_branch_work. rewrite Htop. intros Hloop.
  apply branch_work_loop_sound in Hloop;
    [|pose proof uint256_modulus_pos; lia].
  destruct Hloop as (k & s & Hk & Hs & Hw & _ & Hend).
  pose proof (work_between_prefix_le db k _ from_height s total Hk Hs Htotal)
    as Hle.
  pose proof (work_between_nonneg proof db _ _ _ Hs) as Hs0.
  rewrite Z.add_0_l, to_uint256_small in Hw by lia. subst threshold.
  destruct Hend as [-> | Hmax].
  - rewrite Hs in Htotal. injection Htotal as ->. reflexivity.
  - split; intros _; lia.
Qed.

End ThresholdFacts.

(* ------------------------------------------------------------------ *)
(** ** The reorganizing path of [handle_connect] *)

Lemma annotate_top_blocks (br : branch) (top : block) :
  branch_top br = Some top ->
  branch_blocks (annotate_top br)
  = removelast (branch_blocks br) ++ [set_validation (branch_top_height br) top].
Proof.
  unfold annotate_top. intros Ht. rewrite Ht.
  destruct (branch_blocks br) as [|b bs] eqn:Hb.
  - unfold branch_top in Ht. rewrite Hb in Ht. discriminate.
  - reflexivity.
Qed.

Lemma annotate_top_height (br : branch) :
  branch_height (annotate_top br) = branch_height br /\
  branch_hash (annotate_top br) = branch_hash br.
Proof. unfold annotate_top. destruct (branch_blocks br); split; reflexivity. Qed.

Lemma annotate_top_top_height (br : branch) :
  branch_top_height (annotate_top br) = branch_top_height br.
Proof.
  unfold branch_top_height.
  destruct (branch_top br) as [top|] eqn:Ht.
  - rewrite (annotate_top_blocks br top Ht).
    rewrite (proj1 (annotate_top_height br)). f_equal.
    unfold branch_top in Ht. revert Ht.
    destruct (branch_blocks br) as [|a l] using rev_ind; [discriminate|].
    intros _. rewrite removelast_last, !length_app. reflexivity.
  - unfold annotate_top, branch_top in *.
    destruct (branch_blocks br) as [|b bs] eqn:Hb; [now rewrite Hb|].
    exfalso. revert Ht. clear. revert b.
    induction bs as [|c bs IH]; intros b; [discriminate | apply IH].
Qed.

(** X7.  When the branch has strictly more work than the threshold and the
    database commits the swap, [handle_connect] returns [success] after the
    whole sequence: reorganize, chain state update, pool remove, pool prune,
    pool add of the outgoing blocks, notification. *)
Lemma handle_connect_sufficient_work (proof : Z -> Z)
    (populate : option chain_state -> option chain_state)
    (br : branch) (top : block) (threshold : Z) (db : block_database)
    (outgoing : list block) (s : block_organizer) :
  stopped_ s = false ->
  branch_top br = Some top ->
  get_branch_work proof (database_ s) (branch_work proof br)
    (branch_height br + 1) = Some threshold ->
  (threshold < branch_work proof br)%Z ->
  database_reorganize (database_ s) (branch_fork_point (annotate_top br))
    (branch_blocks (annotate_top br)) = (success, db, outgoing) ->
  exists s',
    handle_connect proof populate success br s = Some (success, s') /\
    database_ s' = db /\
    pool_state_ s' = populate (validation_state top) /\
    block_pool_ s'
      = pool_add_list outgoing
          (pool_prune (branch_top_height br)
             (pool_remove (branch_blocks (annotate_top br)) (block_pool_ s))) /\
    journal s'
      = journal s ++
          [call_reorganize (branch_fork_point (annotate_top br))
             (branch_blocks (annotate_top br));
           call_set_chain_state (validation_state top);
           call_pool_remove (branch_blocks (annotate_top br));
           call_pool_prune (branch_top_height br);
           call_pool_add_list outgoing] ++
          deliveries success (branch_height br)
            (branch_blocks (annotate_top br)) outgoing
            (subscriptions (subscriber_ s)).
Proof.
  intros Hs Ht Hg Hgt Hre.
  unfold handle_connect, bind at 1, get_state, ret. rewrite Hs.
  cbn [code_is_error]. rewrite Ht, Hg.
  assert (Hcmp : (branch_work proof br <=? threshold)%Z = false)
    by (apply Z.leb_gt; exact Hgt).
  rewrite Hcmp.
  assert (Hlast : last (branch_blocks (annotate_top br))
                  = Some (set_validation (branch_top_height br) top))
    by (rewrite (annotate_top_blocks br top Ht); apply last_snoc).
  unfold reorganize, bind, record_call, modify, get_state, ret.
  rewrite Hlast. cbn [database_ with_journal]. rewrite Hre.
  cbn [code_is_error fst snd].
  unfold set_chain_state, handle_reorganized, notify_reorganize,
    subscriber_invoke, do_pool_remove, do_pool_prune, do_pool_add_list,
    bind, record_call, modify, get_state, ret.
  cbn [code_is_error].
  rewrite annotate_top_top_height, (proj1 (annotate_top_height br)).
  destruct s as [st sdb ps pool vs sub jr].
  cbn [stopped_ database_ pool_state_ block_pool_ validator_stopped
       subscriber_ journal with_stopped with_database with_pool_state
       with_block_pool with_validator_stopped with_subscriber with_journal
       set_validation validation_state code_is_error fst snd].
  destruct (subscriber_stopped sub);
    eexists; (split; [reflexivity|]);
    cbn [stopped_ database_ pool_state_ block_pool_ validator_stopped
         subscriber_ journal with_stopped with_database with_pool_state
         with_block_pool with_validator_stopped with_subscriber with_journal];
    rewrite <- !app_assoc; repeat split.
Qed.

(** The recipients of the deliveries of one event are the subscriptions,
    one delivery each. *)
Lemma deliveries_once_each (ec : code) (height : nat)
    (incoming outgoing : list block) (handlers : list nat) :
  omap (fun c => match c with
                 | call_deliver n => Some (notified n)
                 | _ => None
                 end)
    (deliveries ec height incoming outgoing handlers)
  = handlers.
Proof.
  unfold deliveries. induction handlers as [|h hs IH]; [reflexivity|].
  simpl. f_equal. apply IH.
Qed.

(** X8.  An [organize] that is suspended in a validator phase when [stop] lands
    hands [service_stopped] to its caller: after [accept] whatever the
    phase reported, after [connect] when [accept] had passed. *)
Lemma organize_stopped_in_flight (proof : Z -> Z) (check : block -> code)
    (accept connect : block_database -> branch -> code)
    (get_path : block_pool -> block -> branch)
    (populate : option chain_state -> option chain_state)
    (sched : schedule) (blk : block) (br : branch) (s : block_organizer) :
  stopped_ s = false ->
  check blk = success ->
  branch_empty (get_path (block_pool_ s) blk) = false ->
  get_block_exists (database_ s) (hash blk) = false ->
  set_branch_height (database_ s) (get_path (block_pool_ s) blk) = Some br ->
  stop_during_accept sched = true \/
  (stop_during_connect sched = true /\ accept (database_ s) br = success) ->
  exists s',
    organize proof check accept connect get_path populate sched blk s
    = Some (service_stopped, s') /\
    stopped_ s' = true /\
    database_ s' = database_ s /\
    block_pool_ s' = block_pool_ s.
Proof.
  intros Hs Hc He Hx Hh Hland.
  rewrite (organize_after_check proof check accept connect get_path populate
             sched blk s Hs Hc), He, Hx, Hh.
  cbn [orb]. unfold bind.
  destruct (run_phase_result (call_accept br) (accept (database_ s) br)
              (stop_during_accept sched)
              (with_journal (journal s ++ [call_check blk]) s))
    as (s1 & -> & Hdb1 & Hpool1 & Hst1 & Hkeep1).
  destruct (stop_during_accept sched) eqn:Hsa.
  - exists s1. rewrite handle_accept_stopped by now apply Hst1.
    repeat split; [now apply Hst1 | exact Hdb1 | exact Hpool1].
  - destruct Hland as [Hland | [Hsc Hacc]]; [discriminate|].
    rewrite (Hkeep1 eq_refl) in *.
    unfold handle_accept, bind at 1, get_state, ret.
    cbn [stopped_ with_journal database_]. rewrite Hs, Hacc.
    cbn [code_is_error]. unfold bind.
    match goal with
    | |- context [run_phase ?c ?e ?b ?st] =>
        destruct (run_phase_result c e b st)
          as (s2 & Hrun & Hdb2 & Hpool2 & Hst2 & _)
    end.
    rewrite Hrun.
    exists s2. rewrite handle_connect_stopped by now apply Hst2.
    repeat split; [now apply Hst2 | exact Hdb2 | exact Hpool2].
Qed.

(* ================================================================== *)
(** * Further properties of the organizer *)

Section OrganizerFrame.

Variable proof : Z -> Z.
Variable check : block -> code.
Variable accept : block_database -> branch -> code.
Variable connect : block_database -> branch -> code.
Variable get_path : block_pool -> block -> branch.
Variable populate : option chain_state -> option chain_state.

Lemma branch_top_of_nonempty (br : branch) :
  branch_empty br = false -> exists top, branch_top br = Some top.
Proof.
  unfold branch_empty, branch_top.
  destruct (branch_blocks br) as [|b bs]; [discriminate|]. intros _.
  revert b. induction bs as [|c bs IH]; intros b; [now exists b|].
  destruct (IH c) as [top Htop]. exists top. exact Htop.
Qed.

Lemma set_branch_height_blocks (db : block_database) (br br' : branch) :
  set_branch_height db br = Some br' ->
  branch_blocks br' = branch_blocks br /\
  branch_hash br' = branch_hash br /\
  get_height db (branch_hash br) = Some (branch_height br').
Proof.
  unfold set_branch_height.
  destruct (get_height db (branch_hash br)) as [height|]; [|discriminate].
  intros [= <-]. repeat split.
Qed.

(** [reorganize] always hands a code to its handler and never touches the
    block pool or the stopped flag. *)
Lemma reorganize_frame (fork_point : checkpoint) (incoming : list block)
    (s : block_organizer) :
  exists r s',
    reorganize populate fork_point incoming s = Some (r, s') /\
    block_pool_ s' = block_pool_ s /\
    stopped_ s' = stopped_ s /\
    (r.1 = success \/ r.1 = operation_failed) /\
    (incoming = [] -> database_ s' = database_ s).
Proof.
  unfold reorganize, bind, record_call, modify, get_state, ret.
  destruct (last incoming) as [top|] eqn:Hlast.
  - cbn [database_ with_journal].
    pose proof (database_reorganize_codes (database_ s) fork_point incoming)
      as Hc.
    destruct (database_reorganize (database_ s) fork_point incoming)
      as [[ec db] outgoing].
    cbn in Hc.
    assert (Hne : incoming = [] -> False) by (intros ->; discriminate).
    destruct (code_is_error ec); cbn; eexists; eexists;
      (split; [reflexivity|]); destruct s; cbn;
      (split; [reflexivity|]); (split; [reflexivity|]);
      (split; [exact Hc | intros H; destruct (Hne H)]).
  - eexists; eexists. split; [reflexivity|]. destruct s; cbn.
    repeat split. now right.
Qed.

(** [handle_reorganized] always hands back the code it was given; it never
    touches the store, and on a failed reorganization it leaves the pool
    alone and notifies nobody. *)
Lemma handle_reorganized_frame (ec : code) (br : branch)
    (outgoing : list block) (s : block_organizer) :
  exists s',
    handle_reorganized ec br outgoing s = Some (ec, s') /\
    database_ s' = database_ s /\
    (code_is_error ec = true ->
     block_pool_ s' = block_pool_ s /\
     journal s' = journal s ++ [call_log_fatal ec]).
Proof.
  unfold handle_reorganized.
  destruct (code_is_error ec) eqn:Herr.
  - unfold bind, record_call, modify, ret. eexists. split; [reflexivity|].
    destruct s; cbn. repeat split.
  - destruct ec; try discriminate.
    unfold notify_reorganize, subscriber_invoke,
      do_pool_remove, do_pool_prune, do_pool_add_list,
      bind, record_call, modify, get_state, ret.
    cbn.
    destruct (subscriber_stopped (subscriber_ s)); eexists;
      (split; [reflexivity|]); destruct s; cbn;
      (split; [reflexivity | discriminate]).
Qed.




Lemma handle_connect_defined (ec : code) (br : branch) (s : block_organizer) :
  branch_empty br = false ->
  exists r s', handle_connect proof populate ec br s = Some (r, s').
Proof.
  intros Hne. destruct (branch_top_of_nonempty br Hne) as [top Htop].
  unfold handle_connect, bind at 1, get_state, ret.
  destruct (stopped_ s); [eauto|].
  destruct (code_is_error ec); [eauto|].
  rewrite Htop.
  destruct (get_branch_work proof (database_ s) (branch_work proof br)
              (branch_height br + 1)) as [threshold|]; [|eauto].
  destruct (branch_work proof br <=? threshold)%Z.
  - unfold do_pool_add, bind, record_call, modify, ret. eauto.
  - unfold bind.
    destruct (reorganize_frame (branch_fork_point (annotate_top br))
                (branch_blocks (annotate_top br)) s)
      as (r0 & s0 & -> & _).
    destruct (handle_reorganized_frame r0.1 (annotate_top br) r0.2 s0)
      as (s1 & -> & _).
    eauto.
Qed.

(** X5.  [organize] always hands a code to its caller: the guard on the
    empty branch keeps the null [branch->top()] away from
    [handle_connect], which on its own is undefined on an empty branch of a
    running organizer. *)
Theorem organize_never_dereferences_null_top (sched : schedule) (blk : block)
    (s : block_organizer) :
  (exists r s',
     organize proof check accept connect get_path populate sched blk s
     = Some (r, s')) /\
  (forall br,
     stopped_ s = false -> branch_empty br = true ->
     handle_connect proof populate success br s = None).
Proof.
  split.
  - unfold organize, bind at 1, get_state, ret.
    destruct (stopped_ s); [eauto|].
    unfold bind at 1, record_call, modify.
    destruct (code_is_error (check blk)); [eauto|].
    destruct (branch_empty (get_path (block_pool_ s) blk)) eqn:Hempty;
      [cbn [orb]; eauto|].
    cbn [orb].
    destruct (get_block_exists (database_ s) (hash blk)); [eauto|].
    destruct (set_branch_height (database_ s) (get_path (block_pool_ s) blk))
      as [br|] eqn:Hset; [|eauto].
    apply set_branch_height_blocks in Hset. destruct Hset as (Hblocks & _).
    assert (Hne : branch_empty br = false)
      by (unfold branch_empty in *; now rewrite Hblocks).
    unfold bind.
    destruct (run_phase_result (call_accept br) (accept (database_ s) br)
                (stop_during_accept sched)
                (with_journal (journal s ++ [call_check blk]) s))
      as (s1 & -> & _).
    unfold handle_accept, bind at 1, get_state, ret.
    destruct (stopped_ s1); [eauto|].
    destruct (code_is_error (accept (database_ s) br)); [eauto|].
    unfold bind.
    destruct (run_phase_result (call_connect br) (connect (database_ s1) br)
                (stop_during_connect sched) s1) as (s2 & -> & _).
    apply handle_connect_defined. exact Hne.
  - intros br Hs Hempty.
    unfold handle_connect, bind, get_state, ret. rewrite Hs.
    cbn [code_is_error].
    unfold branch_empty in Hempty. unfold branch_top.
    destruct (branch_blocks br); [reflexivity | discriminate].
Qed.

End OrganizerFrame.

Section OrganizerOutcomes.

Variable proof : Z -> Z.
Variable check : block -> code.
Variable accept : block_database -> branch -> code.
Variable connect : block_database -> branch -> code.
Variable get_path : block_pool -> block -> branch.
Variable populate : option chain_state -> option chain_state.

(** X6.  A block that the accept phase rejects is handed back with the
    code of that phase and connect is never called; a block that accept
    passes and connect rejects is handed back with the code of connect.
    Either way nothing but the journal of calls changes: the block is not
    pooled and the store is not touched. *)
Theorem organize_validation_failure (sched : schedule) (blk : block)
    (br : branch) (s : block_organizer) :
  stopped_ s = false ->
  check blk = success ->
  branch_empty (get_path (block_pool_ s) blk) = false ->
  get_block_exists (database_ s) (hash blk) = false ->
  set_branch_height (database_ s) (get_path (block_pool_ s) blk) = Some br ->
  stop_during_accept sched = false ->
  (code_is_error (accept (database_ s) br) = true ->
   organize proof check accept connect get_path populate sched blk s
   = Some (accept (database_ s) br,
           with_journal (journal s ++ [call_check blk; call_accept br]) s)) /\
  (accept (database_ s) br = success ->
   stop_during_connect sched = false ->
   code_is_error (connect (database_ s) br) = true ->
   organize proof check accept connect get_path populate sched blk s
   = Some (connect (database_ s) br,
           with_journal
             (journal s ++ [call_check blk; call_accept br; call_connect br])
             s)).
Proof.
  intros Hs Hc He Hx Hh Hsa.
  rewrite (organize_after_check proof check accept connect get_path populate
             sched blk s Hs Hc), He, Hx, Hh.
  cbn [orb]. rewrite Hsa.
  unfold run_phase, handle_accept, bind, record_call, modify, get_state, ret.
  cbn [stopped_ with_journal database_ journal]. rewrite Hs.
  split.
  - intros Herr. rewrite Herr.
    destruct s; cbn. rewrite <- app_assoc. reflexivity.
  - intros Hacc Hsc Herr. rewrite Hacc, Hsc. cbn [code_is_error].
    unfold run_phase, handle_connect, bind, record_call, modify, get_state, ret.
    cbn [stopped_ with_journal database_ journal]. rewrite Hs, Herr.
    destruct s; cbn. rewrite <- !app_assoc. reflexivity.
Qed.

(** X9.  [handle_reorganize] drops the code of [set_chain_state]: when the
    database commits the swap but the chain state cannot be populated,
    [reorganize] still hands [success] to its handler and leaves
    [pool_state_] empty. *)
Theorem reorganize_ignores_chain_state_failure (fork_point : checkpoint)
    (incoming outgoing : list block) (top : block) (db : block_database)
    (s : block_organizer) :
  last incoming = Some top ->
  database_reorganize (database_ s) fork_point incoming
    = (success, db, outgoing) ->
  populate (validation_state top) = None ->
  exists s',
    reorganize populate fork_point incoming s
      = Some ((success, outgoing), s') /\
    database_ s' = db /\
    pool_state_ s' = None.
Proof.
  intros Hlast Hre Hpop.
  unfold reorganize, set_chain_state, bind, record_call, modify, get_state, ret.
  rewrite Hlast. cbn [database_ with_journal]. rewrite Hre.
  cbn [code_is_error]. rewrite Hpop.
  eexists. split; [reflexivity|]. destruct s; cbn. split; reflexivity.
Qed.

Lemma handle_connect_success (ec : code) (br : branch) (s s' : block_organizer) :
  handle_connect proof populate ec br s = Some (success, s') ->
  exists threshold db outgoing,
    stopped_ s = false /\
    get_branch_work proof (database_ s) (branch_work proof br)
      (branch_height br + 1) = Some threshold /\
    (threshold < branch_work proof br)%Z /\
    database_reorganize (database_ s) (branch_fork_point (annotate_top br))
      (branch_blocks (annotate_top br)) = (success, db, outgoing) /\
    database_ s' = db.
Proof.
  unfold handle_connect, bind at 1, get_state, ret.
  destruct (stopped_ s); [discriminate|].
  destruct (code_is_error ec) eqn:Herr;
    [intros [= -> _]; discriminate|].
  destruct (branch_top br) as [top|]; [|discriminate].
  destruct (get_branch_work proof (database_ s) (branch_work proof br)
              (branch_height br + 1)) as [threshold|]; [|discriminate].
  destruct (branch_work proof br <=? threshold)%Z eqn:Hcmp.
  - unfold do_pool_add, bind, record_call, modify, ret. discriminate.
  - apply Z.leb_gt in Hcmp.
    unfold reorganize, bind, record_call, modify, get_state, ret.
    destruct (last (branch_blocks (annotate_top br))) as [t|].
    + cbn [database_ with_journal].
      destruct (database_reorganize (database_ s)
                  (branch_fork_point (annotate_top br))
                  (branch_blocks (annotate_top br)))
        as [[ec0 db] outgoing] eqn:Hre.
      destruct (code_is_error ec0) eqn:Herr0; cbn [fst snd].
      * intros Hfin. apply handle_reorganized_codes in Hfin.
        subst ec0. discriminate.
      * destruct ec0; try discriminate.
        intros Hfin. exists threshold, db, outgoing.
        repeat split; try assumption.
        unfold set_chain_state, bind, record_call, modify, ret in Hfin.
        match type of Hfin with
        | handle_reorganized ?e ?b ?o ?st = _ =>
            destruct (handle_reorganized_frame e b o st) as (s1 & Hrun & Hdb & _)
        end.
        rewrite Hrun in Hfin. injection Hfin as <-.
        rewrite Hdb. destruct s; reflexivity.
    + intros Hfin. apply handle_reorganized_codes in Hfin. discriminate.
Qed.

(** X10.  [organize] hands back [success] only after the swap: the block
    passed the duplicate test, its branch is rooted in the confirmed chain,
    the branch has strictly more work than the threshold
    [get_branch_work] returned, the database committed the reorganization,
    and the store is the one the database left. *)
Theorem organize_success_means_more_work (sched : schedule) (blk : block)
    (s s' : block_organizer) :
  organize proof check accept connect get_path populate sched blk s
    = Some (success, s') ->
  exists br threshold db outgoing,
    branch_empty (get_path (block_pool_ s) blk) = false /\
    get_block_exists (database_ s) (hash blk) = false /\
    set_branch_height (database_ s) (get_path (block_pool_ s) blk) = Some br /\
    get_branch_work proof (database_ s) (branch_work proof br)
      (branch_height br + 1) = Some threshold /\
    (threshold < branch_work proof br)%Z /\
    database_reorganize (database_ s) (branch_fork_point (annotate_top br))
      (branch_blocks (annotate_top br)) = (success, db, outgoing) /\
    database_ s' = db.
Proof.
  unfold organize, bind at 1, get_state, ret.
  destruct (stopped_ s); [discriminate|].
  unfold bind at 1, record_call, modify.
  destruct (code_is_error (check blk)) eqn:Hc;
    [intros [= Heq _]; rewrite Heq in Hc; discriminate|].
  destruct (branch_empty (get_path (block_pool_ s) blk)) eqn:He;
    [discriminate|].
  destruct (get_block_exists (database_ s) (hash blk)) eqn:Hx;
    [discriminate|].
  cbn [orb].
  destruct (set_branch_height (database_ s) (get_path (block_pool_ s) blk))
    as [br|] eqn:Hset; [|discriminate].
  unfold bind.
  destruct (run_phase_result (call_accept br) (accept (database_ s) br)
              (stop_during_accept sched)
              (with_journal (journal s ++ [call_check blk]) s))
    as (s1 & -> & Hdb1 & _).
  unfold handle_accept, bind at 1, get_state, ret.
  destruct (stopped_ s1); [discriminate|].
  destruct (code_is_error (accept (database_ s) br)) eqn:Ha;
    [intros [= Heq _]; rewrite Heq in Ha; discriminate|].
  unfold bind.
  destruct (run_phase_result (call_connect br) (connect (database_ s1) br)
              (stop_during_connect sched) s1) as (s2 & -> & Hdb2 & _).
  intros Hfin. apply handle_connect_success in Hfin.
  destruct Hfin as (threshold & db & outgoing & _ & Hg & Hlt & Hre & Hdb).
  assert (Hdbs : database_ s2 = database_ s)
    by (rewrite Hdb2, Hdb1; now destruct s).
  rewrite Hdbs in Hg, Hre.
  exists br, threshold, db, outgoing. repeat split; assumption.
Qed.

End OrganizerOutcomes.


Lemma organize_validation_failure_witness :
  organize example_proof example_check rejecting_accept example_connect
    example_get_path example_populate undisturbed block_b2 example_organizer
  = Some (validate_failed 1,
          with_journal
            [call_check block_b2; call_accept (mk_branch 2%N 1 [block_b2])]
            example_organizer).
Proof.
  destruct (organize_validation_failure example_proof example_check
              rejecting_accept example_connect example_get_path
              example_populate undisturbed block_b2
              (mk_branch 2%N 1 [block_b2]) example_organizer)
    as [Hacc _];
    [reflexivity | reflexivity | reflexivity | reflexivity | reflexivity
    | reflexivity | ].
  apply Hacc. reflexivity.
Defined.

Lemma reorganize_ignores_chain_state_failure_witness :
  exists s',
    reorganize failing_populate (mk_checkpoint 3%N 2) [block_a3]
      example_organizer
    = Some ((success, []), s') /\
    database_ s' = example_chain4 /\
    pool_state_ s' = None.
Proof.
  apply (reorganize_ignores_chain_state_failure failing_populate
           (mk_checkpoint 3%N 2) [block_a3] [] block_a3 example_chain4
           example_organizer); reflexivity.
Defined.

Lemma organize_success_means_more_work_witness :
  exists s' br threshold db outgoing,
    organize example_proof example_check example_accept example_connect
      example_get_path example_populate undisturbed block_a3 example_organizer
    = Some (success, s') /\
    get_branch_work example_proof (database_ example_organizer)
      (branch_work example_proof br) (branch_height br + 1) = Some threshold /\
    (threshold < branch_work example_proof br)%Z /\
    database_reorganize (database_ example_organizer)
      (branch_fork_point (annotate_top br)) (branch_blocks (annotate_top br))
    = (success, db, outgoing) /\
    database_ s' = db.
Proof.
  assert (Hrun : exists s',
            organize example_proof example_check example_accept
              example_connect example_get_path example_populate undisturbed
              block_a3 example_organizer = Some (success, s'))
    by (eexists; vm_compute; reflexivity).
  destruct Hrun as [s' Hrun].
  destruct (organize_success_means_more_work example_proof example_check
              example_accept example_connect example_get_path
              example_populate undisturbed block_a3 example_organizer s' Hrun)
    as (br & threshold & db & outgoing & _ & _ & _ & Hg & Hlt & Hre & Hdb).
  exists s', br, threshold, db, outgoing.
  repeat split; assumption.
Defined.

Lemma handle_connect_sufficient_work_witness :
  exists s',
    handle_connect example_proof example_populate success
      (mk_branch 3%N 2 [block_a3]) example_organizer
    = Some (success, s') /\
    database_ s'
      = [Some genesis; Some block_a1; Some block_a2;
         Some (set_validation 3 block_a3)].
Proof.
  destruct (handle_connect_sufficient_work example_proof example_populate
              (mk_branch 3%N 2 [block_a3]) block_a3 0%Z
              [Some genesis; Some block_a1; Some block_a2;
               Some (set_validation 3 block_a3)] [] example_organizer)
    as (s' & Hrun & Hdb & _); try reflexivity.
  exists s'. split; assumption.
Defined.

Lemma organize_stopped_in_flight_witness :
  exists s',
    organize example_proof example_check example_accept example_connect
      example_get_path example_populate (mk_schedule true false) block_b2
      example_organizer
    = Some (service_stopped, s') /\
    stopped_ s' = true.
Proof.
  destruct (organize_stopped_in_flight example_proof example_check
              example_accept example_connect example_get_path
              example_populate (mk_schedule true false) block_b2
              (mk_branch 2%N 1 [block_b2]) example_organizer)
    as (s' & Hrun & Hst & _); try reflexivity.
  - left. reflexivity.
  - exists s'. split; assumption.
Defined.

Lemma get_branch_work_compares_as_total_witness :
  (5 <= 5)%Z <-> (5 <= 8)%Z.
Proof.
  apply (get_branch_work_compares_as_total example_proof example_chain 5 1 2
           8 5); try reflexivity.
Defined.

(* ================================================================== *)
(** * Further properties of the fast chain readers *)

Lemma fork_difficulty_loop_sound (difficulty : Z -> Z) (db : block_database)
    (n height : nat) (acc : Z) :
  match fork_difficulty_loop difficulty db n height acc with
  | Some w =>
      exists total,
        work_between difficulty db height n = Some total /\
        w = to_uint256 (acc + total) \/ (n = 0 /\ w = acc)
  | None => exists h, height <= h < height + n /\ blocks_get db h = None
  end.
Proof.
  revert height acc. induction n as [|n IH]; intros height acc; simpl.
  - exists 0%Z. now right.
  - destruct (blocks_get db height) as [r|] eqn:Hr.
    + specialize (IH (S height)
                    (uint256_add acc (block_difficulty difficulty (bits r)))).
      destruct (fork_difficulty_loop difficulty db n (S height)
                  (uint256_add acc (block_difficulty difficulty (bits r))))
        as [w|].
      * destruct IH as [total [[Ht Hw] | [-> Hw]]].
        -- exists (block_proof difficulty (bits r) + total)%Z. left.
           rewrite Ht. split; [reflexivity|].
           rewrite Hw. apply uint256_add_shift.
        -- exists (block_proof difficulty (bits r) + 0)%Z. left.
           simpl. split; [reflexivity|].
           rewrite Hw, Z.add_0_r. reflexivity.
      * destruct IH as (h & Hh & Hnone). exists h. split; [lia | exact Hnone].
    + exists height. split; [lia | exact Hr].
Qed.

(** X2.  The older [get_fork_difficulty] fails exactly when the top height
    or some block record between [from_height] and the tip cannot be read;
    when it succeeds it returns the 256-bit sum over the whole range, and
    the newer [get_branch_work] then succeeds as well, whatever its
    [maximum]. *)
Theorem get_fork_difficulty_exact (difficulty : Z -> Z) (db : block_database)
    (from_height : nat) :
  (get_fork_difficulty difficulty db from_height = None <->
   blocks_top db = None \/
   exists top height,
     blocks_top db = Some top /\ from_height <= height <= top /\
     blocks_get db height = None) /\
  (forall w,
     get_fork_difficulty difficulty db from_height = Some w ->
     exists top total,
       blocks_top db = Some top /\
       work_between difficulty db from_height (S top - from_height)
         = Some total /\
       w = to_uint256 total /\
       forall maximum,
         exists threshold,
           get_branch_work difficulty db maximum from_height = Some threshold).
Proof.
  unfold get_fork_difficulty.
  destruct (blocks_top db) as [top|] eqn:Htop.
  - pose proof (fork_difficulty_loop_sound difficulty db (S top - from_height)
                  from_height 0) as Hloop.
    destruct (fork_difficulty_loop difficulty db (S top - from_height)
                from_height 0) as [w|].
    + assert (Htotal : exists total,
                work_between difficulty db from_height (S top - from_height)
                  = Some total /\ w = to_uint256 total).
      { destruct Hloop as [total [[Ht Hw] | [Hn Hw]]].
        - exists total. split; [exact Ht | exact Hw].
        - exists 0%Z. rewrite Hn. split; [reflexivity | now subst]. }
      destruct Htotal as (total & Ht & Hw).
      split.
      * split; [discriminate|].
        intros [Hnone | (top' & h & Htop' & Hh & Hnone)]; [discriminate|].
        injection Htop' as <-.
        assert (Hsome : is_Some (work_between difficulty db from_height
                                   (S top - from_height)))
          by (rewrite Ht; eauto).
        apply (proj1 (work_between_readable difficulty db _ _)) with (h := h)
          in Hsome; [|lia].
        rewrite Hnone in Hsome. destruct Hsome; discriminate.
      * intros w' [= <-]. exists top, total.
        split; [reflexivity | split; [exact Ht | split; [exact Hw|]]].
        intros maximum.
        apply (get_branch_work_readable difficulty db maximum from_height top
                 total Htop Ht).
    + split; [|discriminate].
      split; [|reflexivity]. intros _. right.
      destruct Hloop as (h & Hh & Hnone).
      exists top, h. split; [reflexivity | split; [lia | exact Hnone]].
  - split; [|discriminate]. split; [now left | reflexivity].
Qed.

Lemma get_height_get_block_hash_aux (db : block_database) (h : hash_digest)
    (height : nat) :
  (get_height db h = Some height ->
   get_block_hash db height = Some h) /\
  (get_height db h = Some height -> height < length db).
Proof.
  unfold get_height, get_block_hash, blocks_get_hash.
  destruct (blocks_find db h 0) as [[found b]|] eqn:Hfind;
    [|split; discriminate].
  apply blocks_find_bound in Hfind. destruct Hfind as (Hb & Hl & Hh).
  rewrite Nat.sub_0_r in Hl.
  split; intros [= <-]; [|lia].
  unfold blocks_get. rewrite Hl. now rewrite Hh.
Qed.

(** X11.  [get_branch_work] reads no block record, and so succeeds with
    zero work on any store that has a top, when [from_height] is above the
    tip (a branch that extends the tip) or when [maximum] is not positive. *)
Theorem get_branch_work_reads_nothing (proof : Z -> Z) (db : block_database)
    (maximum : Z) (from_height top : nat) :
  blocks_top db = Some top ->
  top < from_height \/ (maximum <= 0)%Z ->
  get_branch_work proof db maximum from_height = Some 0%Z.
Proof.
  intros Htop Hedge. unfold get_branch_work. rewrite Htop.
  destruct Hedge as [Habove | Hmax].
  - replace (S top - from_height) with 0 by lia. reflexivity.
  - destruct (S top - from_height) as [|n]; [reflexivity|]. simpl.
    assert (Hstop : (0 <? maximum)%Z = false) by (apply Z.ltb_ge; exact Hmax).
    now rewrite Hstop.
Qed.

Lemma get_branch_work_reads_nothing_witness :
  get_branch_work example_proof gapped_chain 0 2 = Some 0%Z.
Proof.
  apply (get_branch_work_reads_nothing example_proof gapped_chain 0 2 3).
  - reflexivity.
  - right. lia.
Defined.

(* ================================================================== *)
(** * Further properties of the safe chain queries *)

Lemma locator_loop_success (db : block_database) (heights : list nat)
    (found hashes : list hash_digest) :
  Forall2 (fun height h => get_block_hash db height = Some h) heights found ->
  locator_loop db heights hashes = (success, hashes ++ found).
Proof.
  intros Hall. revert hashes.
  induction Hall as [|height h heights found Hh _ IH]; intros hashes; simpl.
  - now rewrite app_nil_r.
  - unfold get_block_hash in Hh.
    destruct (blocks_get db height) as [r|]; [|discriminate].
    injection Hh as <-. rewrite IH, <- app_assoc. reflexivity.
Qed.

Lemma locator_loop_missing (db : block_database) (heights : list nat)
    (hashes : list hash_digest) (height : nat) :
  In height heights -> blocks_get db height = None ->
  locator_loop db heights hashes = (not_found, []).
Proof.
  intros Hin Hnone. revert hashes.
  induction heights as [|h heights IH]; intros hashes; [destruct Hin|].
  simpl. destruct Hin as [-> | Hin].
  - now rewrite Hnone.
  - destruct (blocks_get db h); [now apply IH | reflexivity].
Qed.

(** X12.  [fetch_block_locator] is all or nothing.  Over a store with a
    top, the closure hands [finish_read] either [success] with exactly one
    hash per requested height, in the order requested, or, as soon as one
    requested height cannot be read, [not_found] with an empty list of
    hashes. *)
Theorem block_locator_all_or_nothing (db : block_database)
    (heights : list nat) (top : nat) :
  blocks_top db = Some top ->
  (forall found,
     Forall2 (fun height h => get_block_hash db height = Some h) heights found ->
     block_locator heights db = (success, Some found) /\
     length found = length heights) /\
  (forall height,
     In height heights -> blocks_get db height = None ->
     block_locator heights db = (not_found, Some [])).
Proof.
  intros Htop. unfold block_locator. rewrite Htop. split.
  - intros found Hall.
    rewrite (locator_loop_success db heights found [] Hall). simpl.
    split; [reflexivity|]. symmetry. eapply Forall2_length. exact Hall.
  - intros height Hin Hnone.
    now rewrite (locator_loop_missing db heights [] height Hin Hnone).
Qed.

Lemma block_locator_all_or_nothing_witness :
  block_locator [2; 0] example_chain = (success, Some [3%N; 1%N]) /\
  block_locator [0; 2; 3] gapped_chain = (not_found, Some []).
Proof.
  destruct (block_locator_all_or_nothing example_chain [2; 0] 2 eq_refl)
    as [Hall _].
  destruct (block_locator_all_or_nothing gapped_chain [0; 2; 3] 3 eq_refl)
    as [_ Hgap].
  split.
  - apply Hall. repeat constructor.
  - apply (Hgap 2); [right; left; reflexivity | reflexivity].
Defined.

Lemma build_hashes_newer_consecutive (db : block_database)
    (remaining index : nat) :
  length (build_hashes_newer db remaining index) <= remaining /\
  (forall i v,
     build_hashes_newer db remaining index !! i = Some v ->
     exists b, blocks_get db (index + i) = Some b /\ v = (type_block, hash b)) /\
  (length (build_hashes_newer db remaining index) = remaining \/
   blocks_get db (index + length (build_hashes_newer db remaining index))
     = None).
Proof.
  revert index. induction remaining as [|n IH]; intros index; simpl.
  - split; [lia|]. split; [intros i v Hi; discriminate | now left].
  - destruct (blocks_get db index) as [r|] eqn:Hr; simpl.
    + destruct (IH (S index)) as (Hlen & Hat & Hend).
      split; [lia|]. split.
      * intros [|i] v Hi; simpl in Hi.
        -- injection Hi as <-. exists r. rewrite Nat.add_0_r. now split.
        -- destruct (Hat i v Hi) as (b & Hb & Hv).
           exists b. replace (index + S i) with (S index + i) by lia.
           now split.
      * destruct Hend as [Hfull | Hgap]; [left; lia | right].
        replace (index + S (length (build_hashes_newer db n (S index))))
          with (S index + length (build_hashes_newer db n (S index))) by lia.
        exact Hgap.
    + split; [lia|]. split; [intros i v Hi; discriminate|].
      right. now rewrite Nat.add_0_r.
Qed.

Lemma locator_stop_le (db : block_database) (locator : get_blocks)
    (stop : nat) :
  locator_stop db locator stop <= stop.
Proof.
  unfold locator_stop.
  destruct (decide (stop_hash locator = null_hash)); [lia|].
  destruct (blocks_get_hash db (stop_hash locator)) as [[h b]|]; lia.
Qed.

(** X13.  The newer [fetch_locator_block_hashes] throws [overflow_error]
    exactly when start + 1 + [limit] does not fit [size_t], and
    [length_error] exactly when it fits but the number of heights up to the
    stop is more than the vector can hold; the handler is then never
    called.  Otherwise it hands over at most [limit] hashes: those of the
    blocks at the consecutive heights from one above the locator's start,
    up to the stop height or the first height that cannot be read.  The
    threshold hash has no influence on any of this. *)
Theorem locator_block_hashes_newer_consecutive (max_reserve : N)
    (locator : get_blocks) (threshold : hash_digest) (limit : nat)
    (db : block_database) :
  (locator_block_hashes_newer max_reserve locator threshold limit db
   = inl overflow_error <->
   (max_size_t
    < N.of_nat (locator_start db (start_hashes locator) + 1 + limit))%N) /\
  (locator_block_hashes_newer max_reserve locator threshold limit db
   = inl length_error <->
   (N.of_nat (locator_start db (start_hashes locator) + 1 + limit)
    <= max_size_t)%N /\
   (max_reserve
    < N.of_nat
        (locator_stop db locator
           (locator_start db (start_hashes locator) + 1 + limit)
         - (locator_start db (start_hashes locator) + 1)))%N) /\
  (forall hashes,
     locator_block_hashes_newer max_reserve locator threshold limit db
     = inr hashes ->
     length hashes <= limit /\
     (forall i v,
        hashes !! i = Some v ->
        exists b,
          blocks_get db (locator_start db (start_hashes locator) + 1 + i)
          = Some b /\
          v = (type_block, hash b)) /\
     (length hashes
      = locator_stop db locator
          (locator_start db (start_hashes locator) + 1 + limit)
        - (locator_start db (start_hashes locator) + 1) \/
      blocks_get db
        (locator_start db (start_hashes locator) + 1 + length hashes)
      = None)) /\
  locator_block_hashes_newer max_reserve locator threshold limit db
  = locator_block_hashes_newer max_reserve locator null_hash limit db.
Proof.
  unfold locator_block_hashes_newer, safe_add, reserve, floor_subtract.
  set (start := locator_start db (start_hashes locator)).
  destruct (N.leb_spec (N.of_nat start + N.of_nat 1) max_size_t) as [H1|H1].
  - destruct (N.leb_spec (N.of_nat (start + 1) + N.of_nat limit) max_size_t)
      as [H2|H2].
    + set (stop := locator_stop db locator (start + 1 + limit)).
      pose proof (locator_stop_le db locator (start + 1 + limit)) as Hstop.
      fold stop in Hstop.
      destruct (N.leb_spec (N.of_nat (stop - (start + 1))) max_reserve)
        as [H3|H3].
      * split; [split; [discriminate | lia]|].
        split; [split; [discriminate | lia]|].
        split; [|reflexivity].
        intros hashes [= <-].
        destruct (build_hashes_newer_consecutive db (stop - (start + 1))
                    (start + 1)) as (Hlen & Hat & Hend).
        split; [lia|]. split; [exact Hat | exact Hend].
      * split; [split; [discriminate | lia]|].
        split; [split; [intros _; split; [lia | exact H3] | reflexivity]|].
        split; [discriminate | reflexivity].
    + split; [split; [lia | reflexivity]|].
      split; [split; [discriminate | lia]|].
      split; [discriminate | reflexivity].
  - split; [split; [lia | reflexivity]|].
    split; [split; [discriminate | lia]|].
    split; [discriminate | reflexivity].
Qed.

Lemma build_hashes_older_first (db : block_database) (remaining index : nat) :
  (build_hashes_older db remaining index = [] /\
   forall i, index <= i < index + remaining -> blocks_get db i = None) \/
  (exists i b,
     index <= i < index + remaining /\
     blocks_get db i = Some b /\
     (forall j, index <= j < i -> blocks_get db j = None) /\
     build_hashes_older db remaining index = [(type_block, hash b)]).
Proof.
  revert index. induction remaining as [|n IH]; intros index; simpl.
  - left. split; [reflexivity | intros; lia].
  - destruct (blocks_get db index) as [r|] eqn:Hr.
    + right. exists index, r.
      split; [lia|]. split; [exact Hr|]. split; [intros; lia | reflexivity].
    + destruct (IH (S index)) as [[Hnil Hall] | (i & b & Hi & Hb & Hgap & Hl)].
      * left. split; [exact Hnil|]. intros i Hi.
        destruct (decide (i = index)) as [->|]; [exact Hr | apply Hall; lia].
      * right. exists i, b. split; [lia|]. split; [exact Hb|].
        split; [|exact Hl]. intros j Hj.
        destruct (decide (j = index)) as [->|]; [exact Hr | apply Hgap; lia].
Qed.

(** X14.  The older [fetch_locator_block_hashes] throws [overflow_error]
    exactly when start + [limit] + 1 does not fit [size_t], and
    [length_error] exactly when it fits but the stop height is more than the
    vector can hold; the handler is then never called.  Otherwise it hands
    over either no hash, when no height strictly between its start (the
    threshold applied) and its stop can be read, or exactly one: the hash of
    the lowest readable block in that range. *)
Theorem locator_block_hashes_older_first (max_reserve : N)
    (locator : get_blocks) (threshold : hash_digest) (limit : nat)
    (db : block_database) :
  (locator_block_hashes_older max_reserve locator threshold limit db
   = inl overflow_error <->
   (max_size_t
    < N.of_nat (locator_start db (start_hashes locator) + limit + 1))%N) /\
  (locator_block_hashes_older max_reserve locator threshold limit db
   = inl length_error <->
   (N.of_nat (locator_start db (start_hashes locator) + limit + 1)
    <= max_size_t)%N /\
   (max_reserve
    < N.of_nat
        (locator_stop db locator
           (locator_start db (start_hashes locator) + limit + 1)))%N) /\
  (forall hashes,
     locator_block_hashes_older max_reserve locator threshold limit db
     = inr hashes ->
     (hashes = [] /\
      forall i,
        locator_threshold db threshold
          (locator_start db (start_hashes locator)) < i
          < locator_stop db locator
              (locator_start db (start_hashes locator) + limit + 1) ->
        blocks_get db i = None) \/
     (exists i b,
        locator_threshold db threshold
          (locator_start db (start_hashes locator)) < i
          < locator_stop db locator
              (locator_start db (start_hashes locator) + limit + 1) /\
        blocks_get db i = Some b /\
        (forall j,
           locator_threshold db threshold
             (locator_start db (start_hashes locator)) < j < i ->
           blocks_get db j = None) /\
        hashes = [(type_block, hash b)])).
Proof.
  unfold locator_block_hashes_older, safe_add, reserve.
  set (start0 := locator_start db (start_hashes locator)).
  destruct (N.leb_spec (N.of_nat start0 + N.of_nat limit) max_size_t)
    as [H1|H1].
  - destruct (N.leb_spec (N.of_nat (start0 + limit) + N.of_nat 1) max_size_t)
      as [H2|H2].
    + set (stop := locator_stop db locator (start0 + limit + 1)).
      set (start := locator_threshold db threshold start0).
      destruct (N.leb_spec (N.of_nat stop) max_reserve) as [H3|H3].
      * split; [split; [discriminate | lia]|].
        split; [split; [discriminate | lia]|].
        intros hashes [= <-].
        destruct (build_hashes_older_first db (stop - (start + 1)) (start + 1))
          as [[Hnil Hall] | (i & b & Hi & Hb & Hgap & Hl)].
        -- left. split; [exact Hnil|]. intros i Hi. apply Hall. lia.
        -- right. exists i, b. split; [lia|]. split; [exact Hb|].
           split; [|exact Hl]. intros j Hj. apply Hgap. lia.
      * split; [split; [discriminate | lia]|].
        split; [split; [intros _; split; [lia | exact H3] | reflexivity]|].
        discriminate.
    + split; [split; [lia | reflexivity]|].
      split; [split; [discriminate | lia]|].
      discriminate.
  - split; [split; [lia | reflexivity]|].
    split; [split; [discriminate | lia]|].
    discriminate.
Qed.

Lemma wait_for_grant_failed (attempts : list read_attempt) (a : read_attempt) :
  In a (wait_for_grant attempts).1 -> In a attempts.
Proof.
  induction attempts as [|b rest IH]; simpl; [intros []|].
  destruct (granted b); simpl; [intros []|].
  intros [<- | Ha]; [now left | right; now apply IH].
Qed.

Lemma replay_snoc {S : Type} (body : S -> read_attempt -> S) (captured : S)
    (attempts : list read_attempt) (a : read_attempt) :
  replay body captured (attempts ++ [a])
  = if is_write_locked a then replay body captured attempts
    else body (replay body captured attempts) a.
Proof.
  revert captured. induction attempts as [|b rest IH]; intros captured; simpl.
  - reflexivity.
  - apply IH.
Qed.

Lemma filter_blocks_body_incl (inventories : list inventory_vector)
    (a : read_attempt) (v : inventory_vector) :
  In v (filter_blocks_body inventories a) -> In v inventories.
Proof.
  unfold filter_blocks_body, erase_known_blocks, pool_filter.
  intros Hv. apply List.filter_In in Hv. destruct Hv as [Hv _].
  apply List.filter_In in Hv. tauto.
Qed.

Lemma filter_blocks_replay_incl (attempts : list read_attempt)
    (inventories : list inventory_vector) (v : inventory_vector) :
  In v (replay filter_blocks_body inventories attempts) -> In v inventories.
Proof.
  revert inventories. induction attempts as [|a rest IH]; intros inventories;
    simpl; [tauto|].
  intros Hv. apply IH in Hv.
  destruct (is_write_locked a); [exact Hv|].
  now apply filter_blocks_body_incl in Hv.
Qed.

Lemma filter_blocks_replay_keeps (attempts : list read_attempt)
    (inventories : list inventory_vector) (v : inventory_vector) :
  In v inventories ->
  is_block_type v = false ->
  (forall a, In a attempts -> pool_contains (pool_seen a) v.2 = false) ->
  In v (replay filter_blocks_body inventories attempts).
Proof.
  revert inventories. induction attempts as [|a rest IH]; intros inventories;
    simpl; [tauto|].
  intros Hv Htype Hpool. apply IH; [|exact Htype|].
  - destruct (is_write_locked a); [exact Hv|].
    unfold filter_blocks_body, erase_known_blocks, pool_filter.
    apply List.filter_In. split.
    + apply List.filter_In. split; [exact Hv|].
      rewrite (Hpool a (or_introl eq_refl)). reflexivity.
    + now rewrite Htype.
  - intros b Hb. apply Hpool. now right.
Qed.

(** X15.  [filter_blocks] only ever removes inventories from the caller's
    message: what is left was in the message.  When the read has ended, no
    block inventory that is left is in the store seen by the granted
    attempt.  An inventory that is not of block type, and that no pool view
    of the attempts holds, is never removed. *)
Theorem filter_blocks_erases_known (message : list inventory_vector)
    (attempts : list read_attempt) :
  Forall (fun v => In v message) (filter_blocks false message attempts).2 /\
  ((filter_blocks false message attempts).1.1 = true ->
   exists a,
     In a attempts /\ granted a = true /\
     Forall (fun v => is_block_type v = true ->
                      get_block_exists (store_seen a) v.2 = false)
       (filter_blocks false message attempts).2) /\
  Forall (fun v =>
            is_block_type v = false ->
            (forall a, In a attempts -> pool_contains (pool_seen a) v.2 = false) ->
            In v (filter_blocks false message attempts).2)
    message.
Proof.
  unfold filter_blocks.
  change (fun (inventories : list inventory_vector) (a : read_attempt) =>
            erase_known_blocks (store_seen a)
              (pool_filter (pool_seen a) inventories))
    with filter_blocks_body.
  rewrite read_serial_closed_form.
  destruct (wait_for_grant attempts).2 as [a|] eqn:Hw; cbn [fst snd].
  - destruct (wait_for_grant_granted attempts a Hw) as (Hin & Hl & Hv).
    assert (Hsub : forall b, In b ((wait_for_grant attempts).1 ++ [a]) ->
                             In b attempts).
    { intros b Hb. apply in_app_or in Hb. destruct Hb as [Hb | [<- | []]].
      - now apply wait_for_grant_failed. - exact Hin. }
    split; [|split].
    + apply List.Forall_forall. intros v. apply filter_blocks_replay_incl.
    + intros _. exists a. split; [exact Hin|].
      split; [unfold granted; now rewrite Hl, Hv|].
      rewrite replay_snoc, Hl. apply List.Forall_forall. intros v Hin' Htype.
      unfold filter_blocks_body, erase_known_blocks in Hin'.
      apply List.filter_In in Hin'. destruct Hin' as [_ Hkeep].
      rewrite Htype in Hkeep. cbn [andb] in Hkeep.
      now apply negb_true_iff in Hkeep.
    + apply List.Forall_forall. intros v Hv' Htype Hpool.
      apply filter_blocks_replay_keeps; [exact Hv' | exact Htype|].
      intros b Hb. apply Hpool. now apply Hsub.
  - split; [|split].
    + apply List.Forall_forall. intros v. apply filter_blocks_replay_incl.
    + discriminate.
    + apply List.Forall_forall. intros v Hv' Htype Hpool.
      apply filter_blocks_replay_keeps; [exact Hv' | exact Htype|].
      intros b Hb. apply Hpool. now apply wait_for_grant_failed.
Qed.

(** X16.  What the handlers of [fetch_block_height] and
    [fetch_last_height] receive comes from the store of a granted attempt:
    [fetch_block_height] hands over either [success] with a height at which
    that store holds the hash, or [not_found] with height 0 when the store
    does not hold the hash; [fetch_last_height] hands over [success] with
    the last height of that store, or [not_found] when it is empty. *)
Theorem fetch_heights_from_granted_store (h : hash_digest)
    (attempts : list read_attempt) :
  Forall (fun r =>
            exists a,
              In a attempts /\ granted a = true /\
              ((exists height,
                  r = (success, height) /\
                  get_block_hash (store_seen a) height = Some h) \/
               (r = (not_found, 0) /\
                get_block_exists (store_seen a) h = false)))
    (handled (fetch_block_height false h attempts).2) /\
  Forall (fun r =>
            exists a,
              In a attempts /\ granted a = true /\
              ((exists top,
                  r = (success, top) /\ length (store_seen a) = S top) \/
               (r = (not_found, 0) /\ store_seen a = [])))
    (handled (fetch_last_height false attempts).2).
Proof.
  unfold fetch_block_height, fetch_last_height.
  rewrite !fetch_delivers_granted_read.
  destruct (wait_for_grant attempts).2 as [a|] eqn:Hw;
    [|split; constructor].
  destruct (wait_for_grant_granted attempts a Hw) as (Hin & Hl & Hv).
  assert (Hg : granted a = true) by (unfold granted; now rewrite Hl, Hv).
  split; (constructor; [|constructor]); exists a;
    (split; [exact Hin|]); (split; [exact Hg|]).
  - destruct (blocks_get_hash (store_seen a) h) as [[height b]|] eqn:Hfind.
    + left. exists height. split; [reflexivity|].
      apply (proj1 (get_height_get_block_hash_aux (store_seen a) h height)).
      unfold get_height. now rewrite Hfind.
    + right. split; [reflexivity|].
      unfold get_block_exists. now rewrite Hfind.
  - unfold blocks_top.
    destruct (store_seen a) as [|slot rest] eqn:Hstore; simpl.
    + right. split; reflexivity.
    + left. exists (length rest). split; reflexivity.
Qed.

(* ------------------------------------------------------------------ *)
(** ** The writers of the older block_chain *)

Lemma pushes_app (a b : list database_call) :
  pushes (a ++ b) = pushes a ++ pushes b.
Proof. apply omap_app. Qed.

Lemma bracketed_app (a b : list database_call) :
  forall inside,
    bracketed inside a = true ->
    bracketed inside (a ++ b) = bracketed false b.
Proof.
  induction a as [|c a IH]; intros inside H.
  - destruct inside; [discriminate | reflexivity].
  - destruct c; simpl in *; try discriminate;
      destruct inside; simpl in *; try discriminate; auto.
Qed.

Lemma bracketed_no_flush (calls : list database_call) :
  forall inside,
    bracketed inside calls = true ->
    ~ In db_flush_lock calls /\ ~ In db_flush_unlock calls.
Proof.
  induction calls as [|c calls IH]; intros inside H.
  - split; intros [].
  - destruct c; simpl in H; try discriminate;
      apply andb_true_iff in H as [_ H]; destruct (IH _ H) as [Hl Hu];
      split; intros [Heq | Hin]; try discriminate; auto.
Qed.

Section WriterFacts.

Variable D : Type.
Variable flush_lock : D -> bool * D.
Variable flush_unlock : D -> bool * D.
Variable begin_write : bool -> D -> bool * D.
Variable end_write : bool -> D -> bool * D.
Variable data_push : block -> nat -> D -> bool * D.
Variable data_pop_above : hash_digest -> D -> bool * list block * D.

Local Abbreviation push_blocks := (Writers.push D begin_write end_write data_push).
Local Abbreviation pop_blocks := (Writers.pop D begin_write end_write data_pop_above).
Local Abbreviation swap_blocks :=
  (Writers.swap D flush_lock flush_unlock begin_write end_write data_push
     data_pop_above).

Lemma write_serial_do_push (b : block) (height : nat) (flush : bool)
    (st : D * list database_call) :
  let r := Writers.write_serial D begin_write end_write tt
             (Writers.do_push D data_push b height) flush st in
  exists new,
    r.2.2 = st.2 ++ new /\
    bracketed false new = true /\
    (pushes new = [] \/ pushes new = [(b, height)]) /\
    (r.1.1 = true -> pushes new = [(b, height)]) /\
    Forall (fun c => c = db_begin_write flush \/ c = db_end_write flush \/
                     c = db_push b height) new.
Proof.
  destruct st as [d j]. unfold Writers.write_serial, Writers.do_push, Writers.call.
  cbn [fst snd].
  destruct (begin_write flush d) as [[] d1]; cbn [fst snd].
  - exists [db_begin_write flush; db_push b height; db_end_write flush].
    rewrite <- !app_assoc.
    split; [reflexivity|]. split; [reflexivity|].
    split; [right; reflexivity|]. split; [reflexivity|].
    constructor; [auto|]. constructor; [auto|]. constructor; [auto|].
    constructor.
  - exists [db_begin_write flush; db_end_write flush].
    rewrite <- !app_assoc.
    split; [reflexivity|]. split; [reflexivity|].
    split; [left; reflexivity|]. split; [discriminate|].
    constructor; [auto|]. constructor; [auto|]. constructor.
Qed.

Lemma push_journal (height : nat) (flush : bool) (blocks : list block) :
  forall st,
  exists new,
    (push_blocks blocks height flush st).2.2 = st.2 ++ new /\
    bracketed false new = true /\
    pushes new `prefix_of` ((fun b => (b, height)) <$> blocks) /\
    ((push_blocks blocks height flush st).1 = true ->
     pushes new = (fun b => (b, height)) <$> blocks).
Proof.
  induction blocks as [|b rest IH]; intros st.
  - exists []. simpl. rewrite app_nil_r. repeat split; auto.
  - cbn [Writers.push].
    destruct (write_serial_do_push b height flush st)
      as (new1 & Hj1 & Hb1 & Hp1 & Hok1 & _).
    cbv zeta in Hj1, Hok1.
    destruct (Writers.write_serial D begin_write end_write tt
                (Writers.do_push D data_push b height) flush st)
      as [[ok u] st1] eqn:Hws.
    cbn [fst snd] in *. destruct ok.
    + destruct (IH st1) as (new2 & Hj2 & Hb2 & Hp2 & Hok2).
      exists (new1 ++ new2). rewrite Hj2, Hj1, <- app_assoc.
      rewrite (bracketed_app _ _ _ Hb1), pushes_app, (Hok1 eq_refl).
      split; [reflexivity|]. split; [exact Hb2|]. split.
      * rewrite fmap_cons. apply (prefix_app [(b, height)]). exact Hp2.
      * intros Hr. rewrite (Hok2 Hr). reflexivity.
    + exists new1. split; [exact Hj1|]. split; [exact Hb1|]. split.
      * rewrite fmap_cons. destruct Hp1 as [-> | ->].
        -- apply prefix_nil.
        -- apply (prefix_app [(b, height)] []). apply prefix_nil.
      * discriminate.
Qed.

Lemma pop_journal (out_blocks : list block) (fork_hash : hash_digest)
    (flush : bool) (st : D * list database_call) :
  exists new,
    (pop_blocks out_blocks fork_hash flush st).2.2 = st.2 ++ new /\
    bracketed false new = true /\
    pushes new = [] /\
    ((pop_blocks out_blocks fork_hash flush st).1.1 = true ->
     In (db_pop_above fork_hash) new) /\
    ((pop_blocks out_blocks fork_hash flush st).1.1 = false ->
     (pop_blocks out_blocks fork_hash flush st).1.2 = out_blocks).
Proof.
  destruct st as [d j].
  unfold Writers.pop, Writers.write_serial, Writers.do_pop, Writers.call.
  cbn [fst snd].
  destruct (begin_write flush d) as [[] d1]; cbn [fst snd].
  - exists [db_begin_write flush; db_pop_above fork_hash; db_end_write flush].
    destruct (data_pop_above fork_hash d1) as [[ok blocks] d2]; cbn [fst snd].
    destruct (end_write flush d2) as [ended d3]; cbn [fst snd].
    destruct ok, ended; cbn [fst snd andb]; rewrite <- !app_assoc;
      (split; [reflexivity|]); (split; [reflexivity|]);
      (split; [reflexivity|]); split; intros; try discriminate;
      simpl; auto.
  - exists [db_begin_write flush; db_end_write flush].
    destruct (end_write flush d1) as [ended d3]; cbn [fst snd andb].
    rewrite <- !app_assoc.
    (split; [reflexivity|]); (split; [reflexivity|]);
      (split; [reflexivity|]); split; intros; try discriminate; auto.
Qed.

Lemma push_only_calls (height : nat) (flush : bool) (blocks : list block) :
  forall st new,
    (push_blocks blocks height flush st).2.2 = st.2 ++ new ->
    Forall (fun c => c = db_begin_write flush \/ c = db_end_write flush \/
                     exists b, In b blocks /\ c = db_push b height) new.
Proof.
  induction blocks as [|b rest IH]; intros st new Hnew.
  - simpl in Hnew. rewrite <- (app_nil_r st.2) in Hnew at 1.
    apply app_inv_head in Hnew. subst new. constructor.
  - cbn [Writers.push] in Hnew.
    destruct (write_serial_do_push b height flush st)
      as (new1 & Hj1 & _ & _ & _ & Hc1).
    cbv zeta in Hj1.
    destruct (Writers.write_serial D begin_write end_write tt
                (Writers.do_push D data_push b height) flush st)
      as [[ok u] st1] eqn:Hws.
    cbn [fst snd] in *.
    assert (Hhead : Forall (fun c => c = db_begin_write flush \/
                                     c = db_end_write flush \/
                                     exists b0, In b0 (b :: rest) /\
                                                c = db_push b0 height) new1).
    { eapply Forall_impl; [exact Hc1|]. intros c [H | [H | H]]; auto.
      right. right. exists b. split; [left; reflexivity | exact H]. }
    destruct ok.
    + destruct (push_journal height flush rest st1) as (new2 & Hj2 & _).
      rewrite Hj2, Hj1, <- app_assoc in Hnew.
      apply app_inv_head in Hnew. subst new.
      apply Forall_app. split; [exact Hhead|].
      eapply Forall_impl; [apply (IH st1 new2 Hj2)|].
      intros c [H | [H | (b0 & Hin & H)]]; auto.
      right. right. exists b0. split; [right; exact Hin | exact H].
    + cbn [fst snd] in Hnew. rewrite Hj1 in Hnew.
      apply app_inv_head in Hnew. subst new. exact Hhead.
Qed.

(** X17.  The older [push] hands every block of the list to the database
    with the same height, in list order, and stops at the first failure: the
    [push] calls journalled are a prefix of the blocks paired with [height],
    and all of them when [push] returns [true].  Every data call sits inside
    a [begin_write]/[end_write] bracket that is closed, whatever fails, each
    bracket is opened and closed with the caller's [flush], and nothing but
    these calls reaches the database. *)
Theorem push_same_height_in_brackets (blocks : list block) (height : nat)
    (flush : bool) (st : D * list database_call) :
  exists new,
    (push_blocks blocks height flush st).2.2 = st.2 ++ new /\
    bracketed false new = true /\
    pushes new `prefix_of` ((fun b => (b, height)) <$> blocks) /\
    ((push_blocks blocks height flush st).1 = true ->
     pushes new = (fun b => (b, height)) <$> blocks) /\
    Forall (fun c => c = db_begin_write flush \/ c = db_end_write flush \/
                     exists b, In b blocks /\ c = db_push b height) new.
Proof.
  destruct (push_journal height flush blocks st)
    as (new & Hj & Hb & Hprefix & Hall).
  exists new.
  split; [exact Hj|]. split; [exact Hb|]. split; [exact Hprefix|].
  split; [exact Hall|].
  exact (push_only_calls height flush blocks st new Hj).
Qed.

(** X18.  A [swap] that returns [true] has popped above the fork hash and
    pushed every incoming block at [fork_height + 1], all inside closed
    write brackets, and with [flush] these lie between one [flush_lock] and
    one final [flush_unlock]. *)
Theorem swap_success_journal (out_blocks in_blocks : list block)
    (fork_height : nat) (fork_hash : hash_digest) (flush : bool)
    (st : D * list database_call) :
  (swap_blocks out_blocks in_blocks fork_height fork_hash flush st).1.1 = true ->
  exists writes,
    (swap_blocks out_blocks in_blocks fork_height fork_hash flush st).2.2 =
      st.2 ++ (if flush then [db_flush_lock] else []) ++ writes
           ++ (if flush then [db_flush_unlock] else []) /\
    bracketed false writes = true /\
    In (db_pop_above fork_hash) writes /\
    pushes writes = (fun b => (b, S fork_height)) <$> in_blocks.
Proof.
  unfold Writers.swap, Writers.begin_writes, Writers.end_writes, Writers.call.
  set (locked := if flush then _ else _).
  assert (Hlocked : locked.2.2 = st.2 ++ (if flush then [db_flush_lock] else [])).
  { subst locked. destruct flush; cbn [fst snd]; [|rewrite app_nil_r]; reflexivity. }
  destruct locked as [ok1 st1]. cbn [fst snd] in *.
  destruct ok1; [|discriminate].
  destruct (pop_journal out_blocks fork_hash false st1)
    as (new1 & Hj1 & Hb1 & Hp1 & Hin1 & _).
  destruct (pop_blocks out_blocks fork_hash false st1) as [[ok2 popped] st2].
  cbn [fst snd] in *. destruct ok2; [|discriminate].
  destruct (push_journal (S fork_height) false in_blocks st2)
    as (new2 & Hj2 & Hb2 & _ & Hp2).
  destruct (push_blocks in_blocks (S fork_height) false st2) as [ok3 st3].
  cbn [fst snd] in *. destruct ok3; [|discriminate].
  intros _. exists (new1 ++ new2).
  split; [|split; [|split]].
  - destruct flush; cbn [fst snd]; rewrite Hj2, Hj1, Hlocked, <- !app_assoc;
      [reflexivity | rewrite app_nil_r; reflexivity].
  - rewrite (bracketed_app _ _ _ Hb1). exact Hb2.
  - apply in_or_app. left. auto.
  - rewrite pushes_app, Hp1. apply Hp2. reflexivity.
Qed.

(** X19.  With a database whose flush lock and unlock never fail, a
    flushing [swap] that returns [false] has taken the flush lock and never
    released it: [flush_unlock] is only reached when the pop and every push
    succeeded. *)
Theorem swap_failure_keeps_flush_lock (out_blocks in_blocks : list block)
    (fork_height : nat) (fork_hash : hash_digest)
    (st : D * list database_call) :
  (flush_lock st.1).1 = true ->
  (forall d, (flush_unlock d).1 = true) ->
  (swap_blocks out_blocks in_blocks fork_height fork_hash true st).1.1 = false ->
  exists writes,
    (swap_blocks out_blocks in_blocks fork_height fork_hash true st).2.2 =
      st.2 ++ db_flush_lock :: writes /\
    ~ In db_flush_unlock writes.
Proof.
  intros Hlock Hunlock.
  unfold Writers.swap, Writers.begin_writes, Writers.end_writes, Writers.call.
  cbn [fst snd]. rewrite Hlock.
  set (st1 := ((flush_lock st.1).2, st.2 ++ [db_flush_lock])).
  destruct (pop_journal out_blocks fork_hash false st1)
    as (new1 & Hj1 & Hb1 & _).
  destruct (pop_blocks out_blocks fork_hash false st1) as [[ok2 popped] st2].
  cbn [fst snd] in *. destruct ok2.
  - destruct (push_journal (S fork_height) false in_blocks st2)
      as (new2 & Hj2 & Hb2 & _).
    destruct (push_blocks in_blocks (S fork_height) false st2) as [ok3 st3].
    cbn [fst snd] in *. destruct ok3.
    + cbn [fst snd]. rewrite Hunlock. discriminate.
    + intros _. exists (new1 ++ new2). cbn [fst snd].
      rewrite Hj2, Hj1. subst st1. cbn [fst snd]. rewrite <- !app_assoc.
      split; [reflexivity|].
      assert (Hb : bracketed false (new1 ++ new2) = true)
        by (rewrite (bracketed_app _ _ _ Hb1); exact Hb2).
      apply (bracketed_no_flush _ _ Hb).
  - intros _. exists new1. cbn [fst snd].
    rewrite Hj1. subst st1. cbn [fst snd]. rewrite <- !app_assoc.
    split; [reflexivity|].
    apply (bracketed_no_flush _ _ Hb1).
Qed.

End WriterFacts.

Lemma swap_success_journal_witness :
  exists writes,
    (Writers.swap block_database example_lock example_lock example_bracket example_bracket
       example_data_push example_pop_none_above [] [block_a2] 1
       (hash block_a1) true ([Some genesis; Some block_a1], [])).2.2 =
      [] ++ [db_flush_lock] ++ writes ++ [db_flush_unlock] /\
    bracketed false writes = true /\
    In (db_pop_above (hash block_a1)) writes /\
    pushes writes = (fun b => (b, 2)) <$> [block_a2].
Proof.
  apply (swap_success_journal block_database example_lock example_lock
           example_bracket example_bracket example_data_push
           example_pop_none_above [] [block_a2] 1 (hash block_a1)
           true ([Some genesis; Some block_a1], [])).
  vm_compute. reflexivity.
Defined.

Lemma swap_failure_keeps_flush_lock_witness :
  exists writes,
    (Writers.swap block_database example_lock example_lock example_bracket example_bracket
       example_data_push example_pop_fails [] [block_b2; block_b3] 1
       (hash block_a1) true (example_chain, [])).2.2 =
      [] ++ db_flush_lock :: writes /\
    ~ In db_flush_unlock writes.
Proof.
  apply (swap_failure_keeps_flush_lock block_database example_lock
           example_lock example_bracket example_bracket example_data_push
           example_pop_fails [] [block_b2; block_b3] 1 (hash block_a1)
           (example_chain, [])).
  - reflexivity.
  - intros d. reflexivity.
  - vm_compute. reflexivity.
Defined.

(* ------------------------------------------------------------------ *)
(** ** integer_sequence.hpp *)

Lemma map_add_seq (a len : nat) :
  forall start, map (fun n => a + n) (seq start len) = seq (a + start) len.
Proof.
  induction len as [|len IH]; intros start; simpl; [reflexivity|].
  rewrite IH. do 2 f_equal. lia.
Qed.

Lemma repeat_sequence_seq (k : nat) (extra : list nat) :
  repeat_sequence (seq 0 k) extra = seq 0 (8 * k) ++ extra.
Proof.
  unfold repeat_sequence. rewrite length_seq, !map_add_seq.
  replace (8 * k) with (k + (k + (k + (k + (k + (k + (k + k))))))) by lia.
  rewrite !seq_app, <- !app_assoc.
  repeat (f_equal; [idtac]).
  repeat (apply f_equal2; [f_equal; lia|]).
  reflexivity.
Qed.

Lemma parity_extra_seq (N : nat) :
  8 <= N -> parity_extra (N mod 8) N = seq (N - N mod 8) (N mod 8).
Proof.
  intros HN. pose proof (Nat.mod_upper_bound N 8 ltac:(lia)) as Hlt.
  pose proof (Nat.Div0.mod_le N 8) as Hle.
  destruct (N mod 8) as [|[|[|[|[|[|[|[|p]]]]]]]]; try lia;
    cbn [parity_extra seq]; repeat (f_equal; try lia).
Qed.

Lemma make_step (depth N : nat) :
  8 <= N ->
  make (S depth) N =
  repeat_sequence (make depth (N / 8)) (parity_extra (N mod 8) N).
Proof.
  intros HN. do 8 (destruct N as [|N]; [lia|]). reflexivity.
Qed.

Lemma make_seq (depth : nat) :
  forall N, N <= depth -> make depth N = seq 0 N.
Proof.
  induction depth as [|depth IH]; intros N HN.
  - replace N with 0 by lia. reflexivity.
  - destruct (le_lt_dec 8 N) as [Hbig | Hsmall].
    + rewrite (make_step _ _ Hbig).
      assert (Hdiv : N / 8 <= depth).
      { pose proof (Nat.Div0.div_lt_upper_bound N 8 N). lia. }
      rewrite (IH _ Hdiv), repeat_sequence_seq, (parity_extra_seq _ Hbig).
      pose proof (Nat.div_mod_eq N 8) as Hdm.
      replace (N - N mod 8) with (0 + 8 * (N / 8)) by lia.
      rewrite <- seq_app. f_equal. lia.
    + do 8 (destruct N as [|N]; [reflexivity|]). lia.
Qed.

(** X20.  [make_index_sequence<N>] is the sequence [0, 1, ..., N - 1], so
    its [size()] is [N]; any deeper nesting of the instantiations gives the
    same sequence. *)
Theorem make_index_sequence_counts (N : nat) :
  make_index_sequence N = seq 0 N /\
  length (make_index_sequence N) = N /\
  forall deeper, make (N + deeper) N = make_index_sequence N.
Proof.
  unfold make_index_sequence.
  rewrite (make_seq N N (le_n N)), length_seq.
  split; [reflexivity|]. split; [reflexivity|].
  intros deeper. apply make_seq. lia.
Qed.
